(** * Coordinate reconstruction of a protein chain (NeRF)

    A shallow embedding of [transformer/Structure.py] and of [getDihedral]
    from [scripts/data_aq.py], over the real numbers.

    Tensors of three floats are vectors of three reals, every torch / numpy
    operation is read in exact real arithmetic (rounding, NaN and Inf of the
    float32 tensors are outside the model), Python exceptions are the
    [Raise] results of a small error monad, and the lists that
    [generate_coords] grows in place are threaded through its loop as
    explicit state. *)

From Stdlib Require Import Ascii String Bool.
From Stdlib Require Import Reals Lra Lia Psatz List ZArith.
Import ListNotations.

Local Open Scope R_scope.

(* ================================================================== *)
(** * Exceptions *)

Inductive exn : Type :=
| IndexError
| ArithmeticError
| OtherError.

Inductive result (A : Type) : Type :=
| Ok (a : A)
| Raise (e : exn).

Arguments Ok {A} a.
Arguments Raise {A} e.

Definition bind {A B : Type} (m : result A) (k : A -> result B) : result B :=
  match m with
  | Ok a => k a
  | Raise e => Raise e
  end.

Notation "x <- m ;; k" := (bind m (fun x => k))
  (at level 61, m at next level, right associativity).

Definition is_ok {A : Type} (m : result A) : Prop :=
  match m with Ok _ => True | Raise _ => False end.

(* ================================================================== *)
(** * Vectors of three reals *)

Record vec3 : Type := V3 { vx : R; vy : R; vz : R }.

Definition vzero : vec3 := V3 0 0 0.

Definition vadd (u v : vec3) : vec3 :=
  V3 (vx u + vx v) (vy u + vy v) (vz u + vz v).

Definition vsub (u v : vec3) : vec3 :=
  V3 (vx u - vx v) (vy u - vy v) (vz u - vz v).

Definition vscale (k : R) (v : vec3) : vec3 :=
  V3 (k * vx v) (k * vy v) (k * vz v).

(** [t / s] for a tensor [t] and a scalar [s]. *)
Definition vdiv (v : vec3) (s : R) : vec3 :=
  V3 (vx v / s) (vy v / s) (vz v / s).

(** [(u * v).sum()] *)
Definition dot (u v : vec3) : R :=
  vx u * vx v + vy u * vy v + vz u * vz v.

(** [(t ** 2).sum()] *)
Definition norm2 (v : vec3) : R := dot v v.

(** [torch.cross] / [np.cross] on vectors of size three. *)
Definition cross (u v : vec3) : vec3 :=
  V3 (vy u * vz v - vz u * vy v)
     (vz u * vx v - vx u * vz v)
     (vx u * vy v - vy u * vx v).

(** Euclidean distance between two points. *)
Definition dist (p q : vec3) : R := sqrt (norm2 (vsub p q)).

(** A 3x3 matrix given by its columns: [torch.stack([c1, c2, c3], dim=1)]. *)
Record mat3 : Type := Cols { col1 : vec3; col2 : vec3; col3 : vec3 }.

(** [torch.mm(M, d)] for a column vector [d]: row [i] of the product is the
    sum over [j] of [M[i][j] * d[j]]. *)
Definition mm (M : mat3) (d : vec3) : vec3 :=
  V3 (vx (col1 M) * vx d + vx (col2 M) * vy d + vx (col3 M) * vz d)
     (vy (col1 M) * vx d + vy (col2 M) * vy d + vy (col3 M) * vz d)
     (vz (col1 M) * vx d + vz (col2 M) * vy d + vz (col3 M) * vz d).

(* ================================================================== *)
(** * Geometry primitives and the NeRF step ([Structure.py]) *)

(** Default value of the [eps] argument of [l2_normalize]. *)
Definition eps : R := 1e-12.

(** [l2_normalize(t, device, eps=1e-12)]:
    [t / torch.sqrt(torch.max((t**2).sum(), epsilon))]. *)
Definition l2_normalize (t : vec3) : vec3 :=
  vdiv t (sqrt (Rmax (norm2 t) eps)).

(** The local displacement stacked in [nerf] before the rotation. *)
Definition displacement (l theta chi : R) : vec3 :=
  V3 (- l * cos theta)
     (l * sin theta * cos chi)
     (l * sin theta * sin chi).

(** [nerf(a, b, c, l, theta, chi, device)] *)
Definition nerf (a b c : vec3) (l theta chi : R) : vec3 :=
  let W_hat := l2_normalize (vsub b a) in
  let x_hat := l2_normalize (vsub c b) in
  let n_unit := cross W_hat x_hat in
  let z_hat := l2_normalize n_unit in
  let y_hat := cross z_hat x_hat in
  let M := Cols x_hat y_hat z_hat in
  let d := displacement l theta chi in
  vadd c (mm M d).

(** The two operations of [l2_normalize] that have no real value on part of
    their domain, where floating point answers NaN or Inf: [torch.sqrt] of a
    negative number and the division by zero.  [None] stands for such an
    answer. *)
Definition sqrt_def (x : R) : option R :=
  if Rlt_dec x 0 then None else Some (sqrt x).

Definition div_def (x s : R) : option R :=
  if Req_dec_T s 0 then None else Some (x / s).

(** [l2_normalize] over these operations:
    [t / torch.sqrt(torch.max((t**2).sum(), epsilon))], the division being
    made on each of the three components. *)
Definition l2_normalize_def (t : vec3) : option vec3 :=
  match sqrt_def (Rmax (norm2 t) eps) with
  | None => None
  | Some s =>
      match div_def (vx t) s, div_def (vy t) s, div_def (vz t) s with
      | Some x, Some y, Some z => Some (V3 x y z)
      | _, _, _ => None
      end
  end.

(* ================================================================== *)
(** * Backbone ([Structure.py]) *)

(** The angle tensor, one row per residue:
    [phi, psi, omega, n-ca-c, ca-c-n, c-n-ca, chi1 .. chi5]. *)
Definition tensor2 : Type := list (list R).

(** [angles[i, k]] for non-negative [i] and [k]; an index outside the tensor
    raises [IndexError]. *)
Definition index2 (angles : tensor2) (i k : nat) : result R :=
  match nth_error angles i with
  | Some row =>
      match nth_error row k with
      | Some x => Ok x
      | None => Raise IndexError
      end
  | None => Raise IndexError
  end.

(** [coords[-k]] for [k >= 1]. *)
Definition from_end (coords : list vec3) (k : nat) : result vec3 :=
  match nth_error (rev coords) (k - 1) with
  | Some p => Ok p
  | None => Raise IndexError
  end.

Inductive bond : Type := N_CA | CA_C | C_N.

(** The dictionary [bondlens] of [init_backbone] and [extend_backbone]. *)
Definition bondlens (k : bond) : R :=
  match k with
  | N_CA => 1.442
  | CA_C => 1.498
  | C_N => 1.379
  end.

(** [init_backbone(angles, device)]; both device branches compute the same
    three points. *)
Definition init_backbone (angles : tensor2) : result (list vec3) :=
  let a1 := vzero in
  let a2 := vadd a1 (V3 (bondlens N_CA) 0 0) in
  t <- index2 angles 0 3 ;;
  let a3x := cos (PI - t) * bondlens CA_C in
  let a3y := sin (PI - t) * bondlens CA_C in
  let a3 := V3 a3x a3y 0 in
  Ok [a1; a2; a3].

(** One round of the loop [for j in range(3)] of [extend_backbone]: the
    bond angle, the bond length and the dihedral chosen for [j], then the
    NeRF step on [coords[-3], coords[-2], coords[-1]]. *)
Definition backbone_point (i : nat) (angles : tensor2) (coords : list vec3)
    (j : nat) : result vec3 :=
  tbd <-
    match j with
    | O =>
        t <- index2 angles i 4 ;;
        d <- index2 angles (i - 1) 1 ;;
        Ok (t, bondlens C_N, d)
    | S O =>
        t <- index2 angles i 5 ;;
        d <- index2 angles (i - 1) 2 ;;
        Ok (t, bondlens N_CA, d)
    | _ =>
        t <- index2 angles i 3 ;;
        d <- index2 angles i 0 ;;
        Ok (t, bondlens CA_C, d)
    end ;;
  let '(t, b, dihedral) := tbd in
  p3 <- from_end coords 3 ;;
  p2 <- from_end coords 2 ;;
  p1 <- from_end coords 1 ;;
  Ok (nerf p3 p2 p1 b t dihedral).

(** The loop of [extend_backbone] over the rounds [js], appending to
    [bb_pts]; [coords] is the caller's list and is not changed here. *)
Fixpoint backbone_rounds (i : nat) (angles : tensor2) (coords : list vec3)
    (js : list nat) (bb_pts : list vec3) : result (list vec3) :=
  match js with
  | [] => Ok bb_pts
  | j :: js' =>
      next_pt <- backbone_point i angles coords j ;;
      backbone_rounds i angles coords js' (bb_pts ++ [next_pt])
  end.

(** [extend_backbone(i, angles, coords, device)], for [i >= 1]. *)
Definition extend_backbone (i : nat) (angles : tensor2) (coords : list vec3)
    : result (list vec3) :=
  backbone_rounds i angles coords (seq 0 3) [].

(** [init_sidechain(angles, backbone)] *)
Definition init_sidechain (angles : tensor2) (backbone : list vec3)
    : list vec3 :=
  [vzero].

(* ================================================================== *)
(** * Chain assembler ([Structure.py]) *)

(** Type of a side-chain extender over amino-acid labels [aa]: residue
    index, angles, backbone points, side-chain points, sequence. *)
Definition extender (aa : Type) : Type :=
  nat -> tensor2 -> list vec3 -> list vec3 -> list aa -> result (list vec3).

Section Assembler.

(** Amino-acid labels of [input_seq]. *)
Variable aa : Type.

(** Modelled from the spec: [Sidechains.extend_sidechain] is imported by
    [Structure.py] but its module is not among the sources.  The spec
    (sections 3 and 4.5) has the side-chain extender read the angles, the
    backbone and side-chain points placed so far and the residue types,
    never mutate them, and return the new side-chain points of residue
    [i]; it may fail.  It is kept abstract. *)
Variable extend_sidechain : extender aa.

(** The body of [for i in range(1, pad_loc)] over the remaining indices,
    with the lists [bb_arr] and [sc_arr] (grown in place by [+=]) as state. *)
Fixpoint extend_loop (angles : tensor2) (input_seq : list aa)
    (idx : list nat) (bb_arr sc_arr : list vec3)
    : result (list vec3 * list vec3) :=
  match idx with
  | [] => Ok (bb_arr, sc_arr)
  | i :: idx' =>
      bb_pts <- extend_backbone i angles bb_arr ;;
      let bb_arr := bb_arr ++ bb_pts in
      sc_pts <- extend_sidechain i angles bb_arr sc_arr input_seq ;;
      let sc_arr := sc_arr ++ sc_pts in
      extend_loop angles input_seq idx' bb_arr sc_arr
  end.

(** [generate_coords(angles, pad_loc, input_seq, device)]; [pad_loc] is a
    natural number (for a Python integer below [1] the loop is empty, as
    it is for [0] and [1] here). *)
Definition generate_coords (angles : tensor2) (pad_loc : nat)
    (input_seq : list aa) : result (list vec3) :=
  bb_arr <- init_backbone angles ;;
  let sc_arr := init_sidechain angles bb_arr in
  st <- extend_loop angles input_seq (seq 1 (pad_loc - 1)) bb_arr sc_arr ;;
  Ok (fst st ++ snd st).

(** The same loop, recording for every residue the pair of blocks
    [(bb_pts, sc_pts)] it appends instead of the two grown lists. *)
Fixpoint extend_blocks (angles : tensor2) (input_seq : list aa)
    (idx : list nat) (bb_arr sc_arr : list vec3)
    : result (list (list vec3 * list vec3)) :=
  match idx with
  | [] => Ok []
  | i :: idx' =>
      bb_pts <- extend_backbone i angles bb_arr ;;
      let bb_arr := bb_arr ++ bb_pts in
      sc_pts <- extend_sidechain i angles bb_arr sc_arr input_seq ;;
      let sc_arr := sc_arr ++ sc_pts in
      rest <- extend_blocks angles input_seq idx' bb_arr sc_arr ;;
      Ok ((bb_pts, sc_pts) :: rest)
  end.

(** The blocks of all residues [0 .. pad_loc - 1], in sequence order:
    residue [0] has the three initial backbone points and the initial
    side chain. *)
Definition residue_blocks (angles : tensor2) (pad_loc : nat)
    (input_seq : list aa) : result (list (list vec3 * list vec3)) :=
  bb_arr <- init_backbone angles ;;
  let sc_arr := init_sidechain angles bb_arr in
  rest <- extend_blocks angles input_seq (seq 1 (pad_loc - 1)) bb_arr sc_arr ;;
  Ok ((bb_arr, sc_arr) :: rest).

End Assembler.

Arguments extend_loop {aa}.
Arguments generate_coords {aa}.
Arguments extend_blocks {aa}.
Arguments residue_blocks {aa}.

(** Layout in which every residue's backbone block is followed at once by
    its own side-chain block. *)
Definition interleaved (blocks : list (list vec3 * list vec3)) : list vec3 :=
  concat (map (fun p => fst p ++ snd p) blocks).

(** Layout with the backbone blocks of all residues first and the
    side-chain blocks of all residues after them. *)
Definition backbone_then_sidechains (blocks : list (list vec3 * list vec3))
    : list vec3 :=
  concat (map fst blocks) ++ concat (map snd blocks).

(* ================================================================== *)
(** * Dihedral measurement ([data_aq.py]) *)

(** [np.sign] *)
Definition sign (x : R) : R :=
  if Rlt_dec 0 x then 1 else if Rlt_dec x 0 then -1 else 0.

(** The branches that choose [arccos_input]. *)
Definition arccos_input_of (raw tol : R) : result R :=
  if Rle_dec (-1) raw then
    if Rle_dec raw 1 then Ok raw
    else if Rlt_dec (raw - 1) tol then Ok 1
    else Raise ArithmeticError
  else if Rlt_dec (Rabs raw - 1) tol then Ok (-1)
  else Raise ArithmeticError.

(** [getDihedral(coords1, coords2, coords3, coords4, radian)].
    A zero cross product makes [v1] (or [v2]) the quotient [0 / 0], which
    numpy evaluates to NaN; every comparison with NaN is false, so the
    function reaches its last branch and raises.  That case is tested
    first here, because division by zero is not NaN over the reals. *)
Definition getDihedral (coords1 coords2 coords3 coords4 : vec3)
    (radian : bool) : result R :=
  let rad2deg := 180 / PI in
  let eps := 1e-6 in
  let a1 := vsub coords2 coords1 in
  let a2 := vsub coords3 coords2 in
  let a3 := vsub coords4 coords3 in
  let v1 := cross a1 a2 in
  let v2 := cross a2 a3 in
  if Req_dec_T (norm2 v1) 0 then Raise ArithmeticError
  else if Req_dec_T (norm2 v2) 0 then Raise ArithmeticError
  else
    let v1 := vdiv v1 (sqrt (norm2 v1)) in
    let v2 := vdiv v2 (sqrt (norm2 v2)) in
    let porm := sign (dot v1 a3) in
    let arccos_input_raw := dot v1 v2 / sqrt (norm2 v1 * norm2 v2) in
    arccos_input <- arccos_input_of arccos_input_raw eps ;;
    let rad := acos arccos_input in
    let rad := if Req_dec_T porm 0 then rad else rad * porm in
    Ok (if radian then rad else rad * rad2deg).

(* ================================================================== *)
(** * Reference definitions following the specification's words *)

(** Exact normalisation [v / |v|]. *)
Definition unit_vec (v : vec3) : vec3 := vdiv v (sqrt (norm2 v)).

(** The specification's [normalize(v) = v / max(|v|, eps)], with the floor
    [1e-12] on the norm itself. *)
Definition spec_normalize (v : vec3) : vec3 :=
  vdiv v (Rmax (sqrt (norm2 v)) eps).

(** The specification's placement formula for a given [normalize]:
    [x = normalize (c - b)], [z = normalize ((b - a) x x)], [y = z x x],
    [d = c + M * displacement] with [M] of columns [x], [y], [z]. *)
Definition nerf_spec (normalize : vec3 -> vec3) (a b c : vec3)
    (l theta chi : R) : vec3 :=
  let x_hat := normalize (vsub c b) in
  let z_hat := normalize (cross (vsub b a) x_hat) in
  let y_hat := cross z_hat x_hat in
  vadd c (mm (Cols x_hat y_hat z_hat) (displacement l theta chi)).

(** The backbone extender as the specification describes it: each newly
    placed atom joins the three-point context of the next placement. *)
Definition extend_backbone_sequential (i : nat) (angles : tensor2)
    (coords : list vec3) : result (list vec3) :=
  n <- backbone_point i angles coords 0 ;;
  ca <- backbone_point i angles (coords ++ [n]) 1 ;;
  c <- backbone_point i angles (coords ++ [n; ca]) 2 ;;
  Ok [n; ca; c].

(* ================================================================== *)
(** * Example inputs *)

(** A context with two bonds of length [1e-7], at a right angle. *)
Definition tiny_a : vec3 := V3 0 0 0.
Definition tiny_b : vec3 := V3 1e-7 0 0.
Definition tiny_c : vec3 := V3 1e-7 1e-7 0.

(** A context with one bond of length [7.5e-7] after a bond of length [1]. *)
Definition short_a : vec3 := V3 0 0 0.
Definition short_b : vec3 := V3 1 0 0.
Definition short_c : vec3 := V3 1 7.5e-7 0.

(** An angle row with right bond angles and zero torsions. *)
Definition row_right : list R := [0; 0; 0; PI / 2; PI / 2; PI / 2; 0; 0; 0; 0; 0].

(** Two residues. *)
Definition angles_ex : tensor2 := [row_right; row_right].

(** Three placed points at a right angle, with unit bonds. *)
Definition coords_ex : list vec3 := [V3 0 0 0; V3 1 0 0; V3 1 1 0].

(** A side-chain extender for residues whose template lists no atom. *)
Definition no_sidechain : extender nat :=
  fun _ _ _ _ _ => Ok [].

(** The backbone of [angles_ex]: the three initial points, the block that
    [extend_backbone] appends for residue [1], and the per-residue blocks
    with [no_sidechain]. *)
Definition bb0_ex : list vec3 := [V3 0 0 0; V3 1.442 0 0; V3 0 1.498 0].
Definition bb1_ex : list vec3 :=
  [nerf (V3 0 0 0) (V3 1.442 0 0) (V3 0 1.498 0) 1.379 (PI / 2) 0;
   nerf (V3 0 0 0) (V3 1.442 0 0) (V3 0 1.498 0) 1.442 (PI / 2) 0;
   nerf (V3 0 0 0) (V3 1.442 0 0) (V3 0 1.498 0) 1.498 (PI / 2) 0].
Definition blocks_ex : list (list vec3 * list vec3) :=
  [(bb0_ex, [vzero]); (bb1_ex, [])].

(* ================================================================== *)
(** * Auxiliary definitions *)

(** A displacement written on the orthogonal directions [a2], [N x a2]
    and [N], with [N = a1 x a2]. *)
Definition on_frame (a1 a2 : vec3) (p beta gamma : R) : vec3 :=
  vadd (vadd (vscale p a2) (vscale beta (cross (cross a1 a2) a2)))
       (vscale gamma (cross a1 a2)).

(** The angle that [getDihedral] returns when the cosine it measures is
    [cos chi] and the sign it measures is that of [sin chi]. *)
Definition signed_acos (chi : R) : R :=
  if Req_dec_T (sign (sin chi)) 0 then acos (cos chi)
  else acos (cos chi) * sign (sin chi).

(* ================================================================== *)
(** * Sequence encoding ([data_aq.py]) *)

(** [AA_MAP] of [data_aq.py], in source order. *)
Definition AA_MAP : list (ascii * nat) :=
  [("A"%char, 15%nat); ("C"%char, 0%nat); ("D"%char, 1%nat);
   ("E"%char, 17%nat); ("F"%char, 8%nat); ("G"%char, 10%nat);
   ("H"%char, 11%nat); ("I"%char, 5%nat); ("K"%char, 4%nat);
   ("L"%char, 12%nat); ("M"%char, 19%nat); ("N"%char, 9%nat);
   ("P"%char, 6%nat); ("Q"%char, 3%nat); ("R"%char, 13%nat);
   ("S"%char, 2%nat); ("T"%char, 7%nat); ("V"%char, 16%nat);
   ("W"%char, 14%nat); ("Y"%char, 18%nat)].

(** [d[k]] on a dictionary with character keys; a missing key raises
    [KeyError], which is [OtherError] here. *)
Fixpoint dict_get {V : Type} (d : list (ascii * V)) (k : ascii) : result V :=
  match d with
  | [] => Raise OtherError
  | (k', v) :: d' => if Ascii.eqb k k' then Ok v else dict_get d' k
  end.

(** [l[i] = v] on an array, for a non-negative index. *)
Definition set_item {A : Type} (l : list A) (i : nat) (v : A)
    : result (list A) :=
  if (i <? length l)%nat then Ok (firstn i l ++ v :: skipn (S i) l)
  else Raise IndexError.

(** [seq_to_onehot(seq)] *)
Fixpoint seq_to_onehot (seq : string) : result (list (list bool)) :=
  match seq with
  | EmptyString => Ok []
  | String aa seq' =>
      let one_hot := repeat false (length AA_MAP) in
      idx <- dict_get AA_MAP aa ;;
      one_hot <- set_item one_hot idx true ;;
      vector_array <- seq_to_onehot seq' ;;
      Ok (one_hot :: vector_array)
  end.

(** The letters that are keys of [AA_MAP]. *)
Definition is_amino_letter (c : ascii) : bool :=
  existsb (fun p => Ascii.eqb c (fst p)) AA_MAP.

Fixpoint all_amino_letters (s : string) : bool :=
  match s with
  | EmptyString => true
  | String c s' => is_amino_letter c && all_amino_letters s'
  end.

(** The key that [AA_MAP] sends to a given index. *)
Definition letter_of (idx : nat) : option ascii :=
  option_map fst (find (fun p => Nat.eqb (snd p) idx) AA_MAP).

(* ================================================================== *)
(** * Sine and cosine encoding of the angles ([data_aq.py]) *)

(** A two-dimensional numpy array of floats: its shape and its items in
    row-major order. *)
Record array2 : Type := Arr2 { nrows : nat; ncols : nat; items : list R }.

Definition wf_array2 (a : array2) : Prop :=
  length (items a) = (nrows a * ncols a)%nat.

(** [a[i, j]] read from the row-major items. *)
Definition item2 (a : array2) (i j : nat) : option R :=
  nth_error (items a) (i * ncols a + j).

(** What [angle_list_to_sin_cos] appends: the reshaped two-dimensional
    array, or the array of shape [(rows, cols, 2)] given by its items. *)
Inductive sin_cos_array : Type :=
| Reshaped (a : array2)
| Stacked (rows cols : nat) (its : list R).

(** The items of [new_mat] in row-major order: each angle becomes the pair
    of its cosine and its sine. *)
Definition sin_cos_items (xs : list R) : list R :=
  flat_map (fun x => [cos x; sin x]) xs.

(** The number of rows that [reshape(-1, w)] infers for an array of [n]
    items; numpy raises [ValueError] ([OtherError] here) when [w] is zero
    or does not divide [n]. *)
Definition reshape_rows (n w : nat) : result nat :=
  if (w =? 0)%nat then Raise OtherError
  else if (n mod w =? 0)%nat then Ok (n / w)%nat
  else Raise OtherError.

Section SinCos.

(** [NUM_PREDICTED_ANGLES], imported from the [Sidechains] module, which is
    not among the sources. *)
Variable NUM_PREDICTED_ANGLES : nat.

(** [angle_list_to_sin_cos(angs, reshape=True)] *)
Fixpoint angle_list_to_sin_cos (angs : list array2) (reshape : bool)
    : result (list sin_cos_array) :=
  match angs with
  | [] => Ok []
  | a :: angs' =>
      let new_mat := sin_cos_items (items a) in
      new <-
        (if reshape then
           r <- reshape_rows (nrows a * ncols a * 2)
                  (NUM_PREDICTED_ANGLES * 2) ;;
           Ok (Reshaped (Arr2 r (NUM_PREDICTED_ANGLES * 2) new_mat))
         else Ok (Stacked (nrows a) (ncols a) new_mat)) ;;
      new_list <- angle_list_to_sin_cos angs' reshape ;;
      Ok (new :: new_list)
  end.

End SinCos.

(* ================================================================== *)
(** * Angle rows of a residue ([data_aq.py]) *)

(** [l[i]] on a list, for a non-negative index. *)
Definition get_item {A : Type} (l : list A) (i : nat) : result A :=
  match nth_error l i with
  | Some x => Ok x
  | None => Raise IndexError
  end.

(** The elements of a list of optional values when [None] is not among
    them. *)
Fixpoint all_present {A : Type} (l : list (option A)) : option (list A) :=
  match l with
  | [] => Some []
  | None :: _ => None
  | Some x :: l' =>
      match all_present l' with
      | Some xs => Some (x :: xs)
      | None => None
      end
  end.

Section DihedralRows.

(** ProDy residues and atom selections, with the ProDy operations that
    [compute_all_res_dihedrals] applies to them: [residue.select(query)],
    which is [None] when no atom matches, and [sel.getCoords()[0]]. *)
Variable residue : Type.
Variable selection : Type.
Variable select : residue -> string -> option selection.
Variable getCoords0 : selection -> vec3.

(** [get_fictitious_c(first_3_atoms)], which aligns a reference start with
    ProDy's [calcTransformation] and may fail (fewer than three atoms). *)
Variable get_fictitious_c : list selection -> result vec3.

(** [compute_single_dihedral(atoms)], ProDy's [calcDihedral] on four
    atoms. *)
Variable compute_single_dihedral : list selection -> R.

(** [NUM_PREDICTED_ANGLES] of the [Sidechains] module. *)
Variable NUM_PREDICTED_ANGLES : nat.

(** [[residue.select("name " + an) for an in atom_names]] *)
Definition select_names (res : residue) (atom_names : list string)
    : list (option selection) :=
  map (fun an => select res (String.append "name " an)) atom_names.

(** The dihedrals appended by [for n in range(len(atoms) - 3)], each on
    the slice [atoms[n:n + 4]]. *)
Definition sliding_dihedrals (atoms : list selection) : list R :=
  map (fun n => compute_single_dihedral (firstn 4 (skipn n atoms)))
      (seq 0 (length atoms - 3)).

(** The [return] statement: [(k) * [pad_char]] is empty for [k <= 0]. *)
Definition padded_row (backbone bondangles res_dihedrals : list R)
    (pad_char : R) : list R :=
  backbone ++ bondangles ++ res_dihedrals
  ++ repeat pad_char (NUM_PREDICTED_ANGLES - 6 - length res_dihedrals).

(** [compute_all_res_dihedrals(atom_names, residue, prev_residue, backbone,
    bondangles, pad_char)]; the result [None] of the function is [Ok None]. *)
Definition compute_all_res_dihedrals (atom_names : list string)
    (res : residue) (prev_residue : option residue)
    (backbone bondangles : list R) (pad_char : R)
    : result (option (list R)) :=
  if (0 <? length atom_names)%nat then
    match prev_residue with
    | None =>
        match all_present (select_names res atom_names) with
        | None => Ok None
        | Some atoms =>
            previous_c <- get_fictitious_c (firstn 3 atoms) ;;
            a0 <- get_item atoms 0 ;;
            a1 <- get_item atoms 1 ;;
            a2 <- get_item atoms 2 ;;
            d <- getDihedral previous_c (getCoords0 a0) (getCoords0 a1)
                   (getCoords0 a2) true ;;
            Ok (Some (padded_row backbone bondangles
                        ([d] ++ sliding_dihedrals atoms) pad_char))
        end
    | Some prev =>
        match all_present (select prev "name C" :: select_names res atom_names)
        with
        | None => Ok None
        | Some atoms =>
            Ok (Some (padded_row backbone bondangles
                        (sliding_dihedrals atoms) pad_char))
        end
    end
  else Ok (Some (padded_row backbone bondangles [] pad_char)).

End DihedralRows.

Arguments select_names {residue selection}.
Arguments sliding_dihedrals {selection}.
Arguments compute_all_res_dihedrals {residue selection}.

(* ================================================================== *)
(** * Further auxiliary definitions and example inputs *)

(** The signed angle between the planes of [a1, a2] and of [a2, a3]. *)
Definition dihedral_angle (a1 a2 a3 : vec3) : R :=
  let n1 := cross a1 a2 in
  let n2 := cross a2 a3 in
  let c := dot n1 n2 / (sqrt (norm2 n1) * sqrt (norm2 n2)) in
  let s := sign (dot n1 a3) in
  if Req_dec_T s 0 then acos c else acos c * s.

(** The image of a point under scaling by [k] and translation by [t]. *)
Definition similar (k : R) (t p : vec3) : vec3 := vadd (vscale k p) t.

(** A side-chain extender that returns one point for every residue. *)
Definition one_sidechain : extender nat := fun _ _ _ _ _ => Ok [V3 1 1 1].

(** Four points on a staircase with unit steps along the three axes. *)
Definition stair_1 : vec3 := V3 0 0 0.
Definition stair_2 : vec3 := V3 1 0 0.
Definition stair_3 : vec3 := V3 1 1 0.
Definition stair_4 : vec3 := V3 1 1 1.

(** The one-hot rows of the letters [A] and [G]. *)
Definition onehot_AG : list (list bool) :=
  [repeat false 15 ++ true :: repeat false 4;
   repeat false 10 ++ true :: repeat false 9].

(** One array with the row [[0, PI / 2]]. *)
Definition angs_ex : list array2 := [Arr2 1 2 [0; PI / 2]].

(** A residue whose every query selects an atom at the origin. *)
Definition toy_select (r : unit) (q : string) : option vec3 := Some (V3 0 0 0).
Definition toy_names : list string := ["N"; "CA"; "CB"; "CG"]%string.

(* ================================================================== *)
(** * Tactics *)

(** Runs the index lookups of the backbone extender on the example inputs. *)
Ltac run_backbone :=
  cbv beta iota zeta delta
    [extend_backbone extend_backbone_sequential backbone_rounds seq
     backbone_point index2 angles_ex row_right nth_error bind from_end
     coords_ex rev app Nat.sub bondlens].

(** Unfolds the vector operations down to coordinates. *)
Ltac vec_simpl :=
  cbv beta iota delta
    [vadd vsub vscale vdiv cross dot norm2 dist mm displacement vzero
     vx vy vz col1 col2 col3] in *.

(* ================================================================== *)
(** * Normalisation *)

Lemma eps_pos : 0 < eps.
Proof. unfold eps. lra. Qed.

Lemma sqrt_eps : sqrt eps = 1e-6.
Proof.
  unfold eps. replace 1e-12 with (1e-6 * 1e-6) by lra.
  apply sqrt_square. lra.
Qed.

Lemma norm2_nonneg (v : vec3) : 0 <= norm2 v.
Proof. destruct v. vec_simpl. nra. Qed.

Lemma norm2_zero_iff (v : vec3) : norm2 v = 0 <-> v = vzero.
Proof.
  destruct v as [x y z]. vec_simpl. split.
  - intros H. f_equal; nra.
  - intros H. injection H as -> -> ->. ring.
Qed.

Lemma sqrt_Rmax (x y : R) : 0 <= x -> 0 <= y ->
  sqrt (Rmax x y) = Rmax (sqrt x) (sqrt y).
Proof.
  intros Hx Hy. unfold Rmax.
  destruct (Rle_dec x y) as [H|H]; destruct (Rle_dec (sqrt x) (sqrt y)) as [H'|H'];
    try reflexivity.
  - exfalso. apply H'. apply sqrt_le_1; assumption.
  - apply Rle_antisym; [assumption|]. apply sqrt_le_1; lra.
Qed.

Lemma l2_den_floor (t : vec3) : 1e-6 <= sqrt (Rmax (norm2 t) eps).
Proof.
  rewrite <- sqrt_eps. apply sqrt_le_1.
  - pose proof eps_pos; lra.
  - pose proof (Rmax_r (norm2 t) eps). pose proof eps_pos. lra.
  - apply Rmax_r.
Qed.

Lemma norm2_vdiv (v : vec3) (s : R) : s <> 0 ->
  norm2 (vdiv v s) = norm2 v / (s * s).
Proof. intros Hs. destruct v. vec_simpl. field. exact Hs. Qed.

Lemma l2_normalize_exact (v : vec3) :
  eps <= norm2 v -> l2_normalize v = unit_vec v.
Proof.
  intros H. unfold l2_normalize, unit_vec. rewrite Rmax_left; [reflexivity|exact H].
Qed.

Lemma norm2_unit_vec (v : vec3) : 0 < norm2 v -> norm2 (unit_vec v) = 1.
Proof.
  intros H. unfold unit_vec. rewrite norm2_vdiv.
  - rewrite sqrt_sqrt by lra. field. lra.
  - pose proof (sqrt_lt_R0 _ H). lra.
Qed.

Lemma norm2_l2_normalize_le (v : vec3) : norm2 (l2_normalize v) <= 1.
Proof.
  unfold l2_normalize.
  pose proof (l2_den_floor v) as Hd.
  rewrite norm2_vdiv by lra.
  rewrite sqrt_sqrt.
  2:{ pose proof (Rmax_r (norm2 v) eps). pose proof eps_pos. lra. }
  pose proof (Rmax_l (norm2 v) eps). pose proof (Rmax_r (norm2 v) eps).
  pose proof eps_pos.
  apply Rmult_le_reg_r with (Rmax (norm2 v) eps); [lra|].
  unfold Rdiv. rewrite Rmult_assoc, Rinv_l by lra. lra.
Qed.

(** C8 (amended).  In exact real arithmetic, for every [v],
    [l2_normalize v] is [v / max (|v|, 1e-6)]: the default [eps = 1e-12]
    bounds the squared norm under the square root, so the floor on the norm
    is [sqrt eps = 1e-6], not [1e-12].  The result is finite (never NaN or
    Inf): the square root is taken of a number that is not negative and the
    division is by a number that is not zero, so [l2_normalize_def] has a
    value, the one of [l2_normalize], for every [v], zero or not. *)
Theorem l2_normalize_floor (v : vec3) :
  l2_normalize v = vdiv v (Rmax (sqrt (norm2 v)) 1e-6)
  /\ l2_normalize_def v = Some (l2_normalize v).
Proof.
  split.
  - unfold l2_normalize. rewrite sqrt_Rmax, sqrt_eps; [reflexivity| |].
    + apply norm2_nonneg.
    + pose proof eps_pos; lra.
  - unfold l2_normalize_def, sqrt_def, div_def, l2_normalize.
    pose proof (Rmax_r (norm2 v) eps) as Hm. pose proof eps_pos as He.
    pose proof (l2_den_floor v) as Hd.
    destruct (Rlt_dec (Rmax (norm2 v) eps) 0) as [Hneg|_]; [lra|].
    destruct (Req_dec_T (sqrt (Rmax (norm2 v) eps)) 0) as [Hz|_]; [lra|].
    destruct v. reflexivity.
Qed.

Lemma l2_normalize_tiny_x :
  l2_normalize (V3 1e-7 0 0) = V3 0.1 0 0.
Proof.
  unfold l2_normalize.
  replace (norm2 (V3 1e-7 0 0)) with 1e-14 by (vec_simpl; lra).
  rewrite Rmax_right by (unfold eps; lra).
  rewrite sqrt_eps. vec_simpl. f_equal; lra.
Qed.

Lemma spec_normalize_tiny_x :
  spec_normalize (V3 1e-7 0 0) = V3 1 0 0.
Proof.
  unfold spec_normalize.
  replace (norm2 (V3 1e-7 0 0)) with (1e-7 * 1e-7) by (vec_simpl; lra).
  rewrite sqrt_square by lra.
  rewrite Rmax_left by (unfold eps; lra).
  vec_simpl. f_equal; lra.
Qed.

(** Counterexample to C8: for [v = (1e-7, 0, 0)] the code returns
    [(0.1, 0, 0)], while [v / max (|v|, 1e-12)] is [(1, 0, 0)]. *)
Lemma l2_normalize_not_spec_normalize :
  l2_normalize (V3 1e-7 0 0) <> spec_normalize (V3 1e-7 0 0).
Proof.
  rewrite l2_normalize_tiny_x, spec_normalize_tiny_x.
  intros H. injection H as H. lra.
Qed.

(* ================================================================== *)
(** * Vector algebra and the frame of the NeRF step *)

Lemma cross_vdiv_l (u v : vec3) (s : R) :
  cross (vdiv u s) v = vdiv (cross u v) s.
Proof. destruct u, v. vec_simpl. unfold Rdiv. f_equal; ring. Qed.

Lemma cross_vdiv_r (u v : vec3) (s : R) :
  cross u (vdiv v s) = vdiv (cross u v) s.
Proof. destruct u, v. vec_simpl. unfold Rdiv. f_equal; ring. Qed.

Lemma dot_vdiv_l (u v : vec3) (s : R) : dot (vdiv u s) v = dot u v / s.
Proof. destruct u, v. vec_simpl. unfold Rdiv. ring. Qed.

Lemma dot_vdiv_r (u v : vec3) (s : R) : dot u (vdiv v s) = dot u v / s.
Proof. destruct u, v. vec_simpl. unfold Rdiv. ring. Qed.

Lemma dot_comm (u v : vec3) : dot u v = dot v u.
Proof. destruct u, v. vec_simpl. ring. Qed.

Lemma dot_cross_l (u v : vec3) : dot (cross u v) u = 0.
Proof. destruct u, v. vec_simpl. ring. Qed.

Lemma dot_cross_r (u v : vec3) : dot (cross u v) v = 0.
Proof. destruct u, v. vec_simpl. ring. Qed.

Lemma norm2_cross (u v : vec3) :
  norm2 (cross u v) = norm2 u * norm2 v - dot u v * dot u v.
Proof. destruct u, v. vec_simpl. ring. Qed.

Lemma vsub_vadd_l (c v : vec3) : vsub (vadd c v) c = v.
Proof. destruct c, v. vec_simpl. f_equal; ring. Qed.

Lemma norm2_mm (x y z d : vec3) :
  norm2 (mm (Cols x y z) d) =
    vx d * vx d * norm2 x + vy d * vy d * norm2 y + vz d * vz d * norm2 z
    + 2 * (vx d * vy d * dot x y + vx d * vz d * dot x z
           + vy d * vz d * dot y z).
Proof. destruct x, y, z, d. vec_simpl. ring. Qed.

Lemma norm2_displacement (l theta chi : R) :
  norm2 (displacement l theta chi) = l * l.
Proof.
  vec_simpl.
  pose proof (sin2_cos2 theta) as Ht. pose proof (sin2_cos2 chi) as Hc.
  unfold Rsqr in *.
  transitivity
    (l * l * (cos theta * cos theta
              + sin theta * sin theta * (sin chi * sin chi + cos chi * cos chi)));
    [ring|].
  rewrite Hc, Rmult_1_r, (Rplus_comm (cos theta * cos theta)), Ht. ring.
Qed.

Lemma unit_vec_vdiv (v : vec3) (s : R) :
  0 < s -> 0 < norm2 v -> unit_vec (vdiv v s) = unit_vec v.
Proof.
  intros Hs Hv. unfold unit_vec.
  rewrite norm2_vdiv by lra.
  assert (Hq : sqrt (norm2 v / (s * s)) = sqrt (norm2 v) / s).
  { rewrite sqrt_div_alt by nra. rewrite sqrt_square by lra. reflexivity. }
  rewrite Hq. pose proof (sqrt_lt_R0 _ Hv) as Hsq.
  destruct v. vec_simpl. f_equal; field; lra.
Qed.

(** The frame of [nerf] when the floor of [l2_normalize] is inactive for
    the bond [c - b] and for the normal. *)
Section WellConditioned.

Variables a b c : vec3.
Hypothesis Hx : eps <= norm2 (vsub c b).
Hypothesis Hn :
  eps <= norm2 (cross (l2_normalize (vsub b a)) (l2_normalize (vsub c b))).

Let x_hat := l2_normalize (vsub c b).
Let z_hat := l2_normalize (cross (l2_normalize (vsub b a)) x_hat).
Let y_hat := cross z_hat x_hat.

Lemma frame_x_unit : norm2 x_hat = 1.
Proof.
  unfold x_hat. rewrite l2_normalize_exact by exact Hx.
  apply norm2_unit_vec. pose proof eps_pos. lra.
Qed.

Lemma frame_z_unit : norm2 z_hat = 1.
Proof.
  unfold z_hat, x_hat. rewrite l2_normalize_exact by exact Hn.
  apply norm2_unit_vec. pose proof eps_pos. lra.
Qed.

Lemma frame_zx : dot z_hat x_hat = 0.
Proof.
  unfold z_hat. unfold l2_normalize at 1. rewrite dot_vdiv_l, dot_cross_r.
  unfold Rdiv. ring.
Qed.

Lemma frame_y_unit : norm2 y_hat = 1.
Proof.
  unfold y_hat. rewrite norm2_cross, frame_z_unit, frame_x_unit, frame_zx. ring.
Qed.

Lemma frame_xy : dot x_hat y_hat = 0.
Proof. unfold y_hat. rewrite dot_comm. apply dot_cross_r. Qed.

Lemma frame_yz : dot y_hat z_hat = 0.
Proof. unfold y_hat. apply dot_cross_l. Qed.

Lemma nerf_displacement_norm (l theta chi : R) :
  norm2 (vsub (nerf a b c l theta chi) c) = l * l.
Proof.
  unfold nerf. rewrite vsub_vadd_l, norm2_mm.
  fold x_hat. fold z_hat. fold y_hat.
  rewrite frame_x_unit, frame_y_unit, frame_z_unit, frame_xy, frame_yz.
  rewrite (dot_comm x_hat z_hat), frame_zx.
  pose proof (norm2_displacement l theta chi) as Hd.
  unfold norm2, dot in Hd. lra.
Qed.

Lemma nerf_dist (l theta chi : R) :
  0 <= l -> dist (nerf a b c l theta chi) c = l.
Proof.
  intros Hl. unfold dist. rewrite nerf_displacement_norm.
  apply sqrt_square. exact Hl.
Qed.

Lemma nerf_exact_frame (l theta chi : R) :
  nerf a b c l theta chi = nerf_spec unit_vec a b c l theta chi.
Proof.
  unfold nerf, nerf_spec.
  rewrite (l2_normalize_exact _ Hn).
  rewrite (l2_normalize_exact _ Hx) in *.
  set (x := unit_vec (vsub c b)) in *.
  unfold l2_normalize in *. 
  rewrite cross_vdiv_l in *.
  pose proof (l2_den_floor (vsub b a)) as Hs.
  assert (Hpos : 0 < norm2 (cross (vsub b a) x)).
  { rewrite norm2_vdiv in Hn by lra.
    pose proof eps_pos as He.
    set (s := sqrt (Rmax (norm2 (vsub b a)) eps)) in *.
    assert (Hss : 0 < s * s) by nra.
    destruct (Rle_lt_dec (norm2 (cross (vsub b a) x)) 0) as [Hle|Hlt]; [|exact Hlt].
    exfalso.
    assert (norm2 (cross (vsub b a) x) / (s * s) <= 0).
    { unfold Rdiv. pose proof (Rinv_0_lt_compat _ Hss). nra. }
    lra. }
  rewrite unit_vec_vdiv by lra.
  reflexivity.
Qed.

End WellConditioned.

(** The second hypothesis of the well-conditioned case in terms of the
    bonds themselves: the squared sine of the angle between [b - a] and
    [c - b] is at least [1e-12] (when [|b - a|^2 >= 1e-12]). *)
Lemma normal_floor_inactive_iff (a b c : vec3) :
  eps <= norm2 (vsub c b) ->
  (eps <= norm2 (cross (l2_normalize (vsub b a)) (l2_normalize (vsub c b)))
   <-> eps * Rmax (norm2 (vsub b a)) eps * norm2 (vsub c b)
       <= norm2 (cross (vsub b a) (vsub c b))).
Proof.
  intros Hx. pose proof eps_pos as He.
  pose proof (Rmax_r (norm2 (vsub b a)) eps) as Hr.
  pose proof (l2_den_floor (vsub b a)) as Hs.
  assert (Hu : 0 < sqrt (norm2 (vsub c b))) by (apply sqrt_lt_R0; lra).
  unfold l2_normalize at 2. rewrite (Rmax_left _ _ Hx).
  unfold l2_normalize. rewrite cross_vdiv_l, cross_vdiv_r.
  rewrite !norm2_vdiv by lra.
  rewrite !sqrt_sqrt by lra.
  set (n := norm2 (cross (vsub b a) (vsub c b))).
  set (s2 := Rmax (norm2 (vsub b a)) eps) in *.
  set (u2 := norm2 (vsub c b)) in *.
  assert (Hq : n / u2 / s2 = n * / (s2 * u2)) by (field; lra).
  rewrite Hq.
  assert (Hp : 0 < s2 * u2) by nra.
  split; intros H.
  - apply Rmult_le_reg_r with (/ (s2 * u2)); [apply Rinv_0_lt_compat; exact Hp|].
    replace (eps * s2 * u2 * / (s2 * u2)) with eps by (field; lra). exact H.
  - apply Rmult_le_reg_r with (s2 * u2); [exact Hp|].
    rewrite Rmult_assoc, Rinv_l by lra. lra.
Qed.

Lemma sqrt_ge_eps (x : R) : eps * eps <= x -> eps <= sqrt x.
Proof.
  intros H. pose proof eps_pos as He.
  rewrite <- (sqrt_square eps) by lra.
  apply sqrt_le_1; nra.
Qed.

Lemma spec_normalize_exact (v : vec3) :
  eps <= sqrt (norm2 v) -> spec_normalize v = unit_vec v.
Proof.
  intros H. unfold spec_normalize, unit_vec.
  rewrite Rmax_left by exact H. reflexivity.
Qed.

Lemma nerf_spec_floor_exact (a b c : vec3) (l theta chi : R) :
  eps <= norm2 (vsub c b) ->
  eps <= norm2 (cross (l2_normalize (vsub b a)) (l2_normalize (vsub c b))) ->
  nerf_spec spec_normalize a b c l theta chi
  = nerf_spec unit_vec a b c l theta chi.
Proof.
  intros Hx Hn. unfold nerf_spec. cbv zeta.
  pose proof eps_pos as He.
  assert (He1 : eps * eps <= eps) by (unfold eps in *; nra).
  rewrite (spec_normalize_exact (vsub c b)) by (apply sqrt_ge_eps; lra).
  rewrite (l2_normalize_exact _ Hx) in Hn.
  set (x := unit_vec (vsub c b)) in *.
  rewrite (spec_normalize_exact (cross (vsub b a) x)); [reflexivity|].
  apply sqrt_ge_eps.
  unfold l2_normalize in Hn. rewrite cross_vdiv_l in Hn.
  pose proof (l2_den_floor (vsub b a)) as Hs.
  rewrite norm2_vdiv in Hn by lra.
  rewrite sqrt_sqrt in Hn
    by (pose proof (Rmax_r (norm2 (vsub b a)) eps); lra).
  pose proof (Rmax_r (norm2 (vsub b a)) eps) as Hr.
  set (s2 := Rmax (norm2 (vsub b a)) eps) in *.
  set (n := norm2 (cross (vsub b a) x)) in *.
  assert (Hq : eps * s2 <= n).
  { apply Rmult_le_reg_r with (/ s2); [apply Rinv_0_lt_compat; lra|].
    rewrite Rmult_assoc, Rinv_r by lra. unfold Rdiv in Hn. lra. }
  nra.
Qed.

Lemma sqrt_eq_sq (x k : R) : 0 <= x -> sqrt x = k -> x = k * k.
Proof. intros Hx <-. symmetry. apply sqrt_sqrt. exact Hx. Qed.

Lemma l2_normalize_known (v : vec3) (k : R) :
  0 < k -> eps <= k * k -> norm2 v = k * k -> l2_normalize v = vdiv v k.
Proof.
  intros Hk He Hv. unfold l2_normalize. rewrite Hv.
  rewrite Rmax_left by exact He. rewrite sqrt_square by lra. reflexivity.
Qed.

Lemma l2_normalize_small (v : vec3) :
  norm2 v <= eps -> l2_normalize v = vdiv v 1e-6.
Proof.
  intros Hv. unfold l2_normalize. rewrite Rmax_right by exact Hv.
  rewrite sqrt_eps. reflexivity.
Qed.

Lemma unit_vec_known (v : vec3) (k : R) :
  0 < k -> norm2 v = k * k -> unit_vec v = vdiv v k.
Proof.
  intros Hk Hv. unfold unit_vec. rewrite Hv, sqrt_square by lra. reflexivity.
Qed.

Lemma spec_normalize_known (v : vec3) (k : R) :
  eps <= k -> norm2 v = k * k -> spec_normalize v = vdiv v k.
Proof.
  intros Hk Hv. unfold spec_normalize. pose proof eps_pos.
  rewrite Hv, sqrt_square by lra.
  rewrite Rmax_left by exact Hk. reflexivity.
Qed.

(** Evaluation of the normalisations on concrete vectors: [side] settles
    the numeric side conditions, the other tactics rewrite one occurrence
    whose side conditions hold. *)
Ltac side := cbv beta iota delta
    [vadd vsub vscale vdiv cross dot norm2 dist mm displacement vzero
     vx vy vz col1 col2 col3]; unfold eps; lra.

Ltac l2n_small :=
  match goal with
  | |- context [l2_normalize ?v] => rewrite (l2_normalize_small v) by side
  end.

Ltac l2n_known k :=
  match goal with
  | |- context [l2_normalize ?v] => rewrite (l2_normalize_known v k) by side
  end.

Ltac unit_known k :=
  match goal with
  | |- context [unit_vec ?v] => rewrite (unit_vec_known v k) by side
  end.

Ltac specn_known k :=
  match goal with
  | |- context [spec_normalize ?v] => rewrite (spec_normalize_known v k) by side
  end.

Ltac trig_values :=
  rewrite ?cos_PI2, ?sin_PI2, ?cos_0, ?sin_0, ?cos_PI, ?sin_PI.

Ltac vec_done := vec_simpl; trig_values; f_equal; lra.

Lemma nerf_tiny_value :
  nerf tiny_a tiny_b tiny_c 1 (PI / 2) 0 = V3 (1e-7 - 0.1) 1e-7 0.
Proof.
  unfold nerf, tiny_a, tiny_b, tiny_c.
  l2n_small. l2n_small. l2n_known 0.01.
  vec_done.
Qed.

Lemma nerf_spec_unit_tiny_value :
  nerf_spec unit_vec tiny_a tiny_b tiny_c 1 (PI / 2) 0 = V3 (1e-7 - 1) 1e-7 0.
Proof.
  unfold nerf_spec, tiny_a, tiny_b, tiny_c.
  unit_known 1e-7. unit_known 1e-7.
  vec_done.
Qed.

Lemma nerf_spec_l2_tiny_value :
  nerf_spec l2_normalize tiny_a tiny_b tiny_c 1 (PI / 2) 0
  = V3 (1e-7 - 0.001) 1e-7 0.
Proof.
  unfold nerf_spec, tiny_a, tiny_b, tiny_c.
  l2n_small. l2n_small.
  vec_done.
Qed.

Lemma nerf_spec_floor_tiny_value :
  nerf_spec spec_normalize tiny_a tiny_b tiny_c 1 (PI / 2) 0
  = V3 (1e-7 - 1) 1e-7 0.
Proof.
  unfold nerf_spec, tiny_a, tiny_b, tiny_c.
  specn_known 1e-7. specn_known 1e-7.
  vec_done.
Qed.

Lemma V3_neq_x (x y z x' y' z' : R) : x <> x' -> V3 x y z <> V3 x' y' z'.
Proof. intros H E. injection E as E1 _ _. contradiction. Qed.

(* ================================================================== *)
(** * Backbone *)

Lemma extend_backbone_shared_context (i : nat) (angles : tensor2)
    (coords : list vec3) :
  extend_backbone i angles coords =
    (n <- backbone_point i angles coords 0 ;;
     ca <- backbone_point i angles coords 1 ;;
     c <- backbone_point i angles coords 2 ;;
     Ok [n; ca; c]).
Proof. reflexivity. Qed.

Lemma backbone_point_N (i : nat) (angles : tensor2) (coords : list vec3)
    (p3 p2 p1 n : vec3) :
  from_end coords 3 = Ok p3 -> from_end coords 2 = Ok p2 ->
  from_end coords 1 = Ok p1 ->
  backbone_point i angles coords 0 = Ok n ->
  exists t d, n = nerf p3 p2 p1 (bondlens C_N) t d.
Proof.
  intros H3 H2 H1. unfold backbone_point.
  destruct (index2 angles i 4) as [t|e]; simpl; [|discriminate].
  destruct (index2 angles (i - 1) 1) as [d|e]; simpl; [|discriminate].
  rewrite H3, H2, H1. simpl. intros E. injection E as <-. eauto.
Qed.

Lemma extend_backbone_first (i : nat) (angles : tensor2) (coords pts : list vec3) :
  extend_backbone i angles coords = Ok pts ->
  exists n ca c, pts = [n; ca; c]
    /\ backbone_point i angles coords 0 = Ok n
    /\ backbone_point i angles coords 1 = Ok ca
    /\ backbone_point i angles coords 2 = Ok c.
Proof.
  rewrite extend_backbone_shared_context.
  destruct (backbone_point i angles coords 0) as [n|e]; simpl; [|discriminate].
  destruct (backbone_point i angles coords 1) as [ca|e]; simpl; [|discriminate].
  destruct (backbone_point i angles coords 2) as [c|e]; simpl; [|discriminate].
  intros E. injection E as <-. eauto 7.
Qed.

Lemma coords_ex_conditioned :
  eps <= norm2 (vsub (V3 1 1 0) (V3 1 0 0))
  /\ eps <= norm2 (cross (l2_normalize (vsub (V3 1 0 0) (V3 0 0 0)))
                         (l2_normalize (vsub (V3 1 1 0) (V3 1 0 0)))).
Proof.
  split; [side|].
  l2n_known 1. l2n_known 1. side.
Qed.

(** C1 (amended).  When the floor of [l2_normalize] is inactive for the bond
    [c - b] and for the normal ([eps <= |c - b|^2] and
    [eps <= |l2_normalize (b - a) x l2_normalize (c - b)|^2]), [nerf] returns
    [c + M * (-l cos theta, l sin theta cos chi, l sin theta sin chi)] where
    the columns of [M] are [x = normalize (c - b)], [y = z x x] and
    [z = normalize ((b - a) x x)], with [normalize] read as exact
    normalisation or as the specification's [v / max(|v|, 1e-12)]. *)
Theorem nerf_placement (a b c : vec3) (l theta chi : R)
    (Hx : eps <= norm2 (vsub c b))
    (Hn : eps <= norm2 (cross (l2_normalize (vsub b a))
                              (l2_normalize (vsub c b)))) :
  nerf a b c l theta chi = nerf_spec unit_vec a b c l theta chi
  /\ nerf a b c l theta chi = nerf_spec spec_normalize a b c l theta chi.
Proof.
  split.
  - apply nerf_exact_frame; assumption.
  - rewrite nerf_spec_floor_exact by assumption.
    apply nerf_exact_frame; assumption.
Qed.

(** Witness of C1 (amended): unit bonds at a right angle. *)
Lemma nerf_placement_witness :
  eps <= norm2 (vsub (V3 1 1 0) (V3 1 0 0))
  /\ eps <= norm2 (cross (l2_normalize (vsub (V3 1 0 0) (V3 0 0 0)))
                         (l2_normalize (vsub (V3 1 1 0) (V3 1 0 0))))
  /\ (nerf (V3 0 0 0) (V3 1 0 0) (V3 1 1 0) 1.379 (PI / 2) 0
      = nerf_spec unit_vec (V3 0 0 0) (V3 1 0 0) (V3 1 1 0) 1.379 (PI / 2) 0
      /\ nerf (V3 0 0 0) (V3 1 0 0) (V3 1 1 0) 1.379 (PI / 2) 0
         = nerf_spec spec_normalize (V3 0 0 0) (V3 1 0 0) (V3 1 1 0) 1.379
             (PI / 2) 0).
Proof.
  destruct coords_ex_conditioned as [Hx Hn].
  split; [exact Hx|]. split; [exact Hn|].
  apply (nerf_placement (V3 0 0 0) (V3 1 0 0) (V3 1 1 0) 1.379 (PI / 2) 0 Hx Hn).
Defined.

(** Counterexample to C1: with two bonds of length [1e-7] at a right
    angle the context is non-degenerate, yet [nerf] places the point [0.1]
    away from [c], where the formula of the claim gives a distance of [1]
    (exact normalisation, or the specification's floor) or of [0.001]
    ([l2_normalize] applied to [(b - a) x x]). *)
Lemma nerf_tiny_bonds_mismatch :
  vsub tiny_b tiny_a <> vzero
  /\ vsub tiny_c tiny_b <> vzero
  /\ cross (vsub tiny_b tiny_a) (vsub tiny_c tiny_b) <> vzero
  /\ nerf tiny_a tiny_b tiny_c 1 (PI / 2) 0
     <> nerf_spec unit_vec tiny_a tiny_b tiny_c 1 (PI / 2) 0
  /\ nerf tiny_a tiny_b tiny_c 1 (PI / 2) 0
     <> nerf_spec spec_normalize tiny_a tiny_b tiny_c 1 (PI / 2) 0
  /\ nerf tiny_a tiny_b tiny_c 1 (PI / 2) 0
     <> nerf_spec l2_normalize tiny_a tiny_b tiny_c 1 (PI / 2) 0.
Proof.
  rewrite nerf_tiny_value, nerf_spec_unit_tiny_value,
    nerf_spec_floor_tiny_value, nerf_spec_l2_tiny_value.
  unfold tiny_a, tiny_b, tiny_c.
  repeat split; try (vec_simpl; intros E; injection E; intros; lra);
    apply V3_neq_x; lra.
Qed.

(** C2 (amended).  When the floor of [l2_normalize] is inactive for the
    bond [c - b] and for the normal, and [l > 0], the point returned by
    [nerf] lies at distance [l] from [c]; in particular the first point
    that [extend_backbone] returns (the N atom) lies at [1.379] from the
    last point of the coordinate list it is given. *)
Theorem nerf_bond_length (a b c : vec3) (l theta chi : R)
    (Hx : eps <= norm2 (vsub c b))
    (Hn : eps <= norm2 (cross (l2_normalize (vsub b a))
                              (l2_normalize (vsub c b))))
    (Hl : 0 < l) :
  dist (nerf a b c l theta chi) c = l
  /\ forall (i : nat) (angles : tensor2) (coords pts : list vec3),
       from_end coords 3 = Ok a -> from_end coords 2 = Ok b ->
       from_end coords 1 = Ok c ->
       extend_backbone i angles coords = Ok pts ->
       exists n rest, pts = n :: rest /\ dist n c = bondlens C_N.
Proof.
  split.
  - apply nerf_dist; [exact Hx|exact Hn|lra].
  - intros i angles coords pts H3 H2 H1 He.
    destruct (extend_backbone_first _ _ _ _ He) as (n & ca & c' & -> & Hb & _).
    destruct (backbone_point_N _ _ _ _ _ _ _ H3 H2 H1 Hb) as (t & d & ->).
    exists (nerf a b c (bondlens C_N) t d), [ca; c']. split; [reflexivity|].
    apply nerf_dist; [exact Hx|exact Hn|simpl; lra].
Qed.

(** Witness of C2 (amended): unit bonds at a right angle. *)
Lemma nerf_bond_length_witness :
  eps <= norm2 (vsub (V3 1 1 0) (V3 1 0 0))
  /\ eps <= norm2 (cross (l2_normalize (vsub (V3 1 0 0) (V3 0 0 0)))
                         (l2_normalize (vsub (V3 1 1 0) (V3 1 0 0))))
  /\ 0 < 1.379
  /\ (dist (nerf (V3 0 0 0) (V3 1 0 0) (V3 1 1 0) 1.379 (PI / 2) 0) (V3 1 1 0)
      = 1.379
      /\ forall (i : nat) (angles : tensor2) (coords pts : list vec3),
           from_end coords 3 = Ok (V3 0 0 0) ->
           from_end coords 2 = Ok (V3 1 0 0) ->
           from_end coords 1 = Ok (V3 1 1 0) ->
           extend_backbone i angles coords = Ok pts ->
           exists n rest, pts = n :: rest /\ dist n (V3 1 1 0) = bondlens C_N).
Proof.
  destruct coords_ex_conditioned as [Hx Hn].
  split; [exact Hx|]. split; [exact Hn|]. split; [lra|].
  apply (nerf_bond_length (V3 0 0 0) (V3 1 0 0) (V3 1 1 0) 1.379 (PI / 2) 0 Hx Hn).
  lra.
Defined.

(** Counterexample to C2: for the non-degenerate context with two bonds of
    length [1e-7] and [l = 1], the returned point is at distance [0.1]
    from [c]. *)
Lemma nerf_tiny_bond_length_mismatch :
  vsub tiny_b tiny_a <> vzero
  /\ vsub tiny_c tiny_b <> vzero
  /\ cross (vsub tiny_b tiny_a) (vsub tiny_c tiny_b) <> vzero
  /\ 0 < 1
  /\ dist (nerf tiny_a tiny_b tiny_c 1 (PI / 2) 0) tiny_c <> 1.
Proof.
  rewrite nerf_tiny_value. unfold tiny_a, tiny_b, tiny_c.
  repeat split; try (vec_simpl; intros E; injection E; intros; lra); try lra.
  unfold dist. intros H. apply sqrt_eq_sq in H; [|apply norm2_nonneg].
  revert H. vec_simpl. lra.
Qed.

Lemma cos_PI_minus (x : R) : cos (PI - x) = - cos x.
Proof. rewrite cos_minus, cos_PI, sin_PI. ring. Qed.

Lemma sin_PI_minus (x : R) : sin (PI - x) = sin x.
Proof. rewrite sin_minus, cos_PI, sin_PI. ring. Qed.

Lemma init_backbone_points (angles : tensor2) (t : R) :
  index2 angles 0 3 = Ok t ->
  init_backbone angles =
    Ok [vzero; V3 1.442 0 0; V3 (- cos t * 1.498) (sin t * 1.498) 0].
Proof.
  intros H. unfold init_backbone. rewrite H. cbn [bind].
  rewrite cos_PI_minus, sin_PI_minus.
  unfold vadd, vzero, bondlens. cbn [vx vy vz].
  repeat f_equal; lra.
Qed.

Lemma init_backbone_row_right (rows : tensor2) :
  init_backbone (row_right :: rows) = Ok bb0_ex.
Proof.
  rewrite (init_backbone_points _ (PI / 2)) by reflexivity.
  unfold bb0_ex, vzero. rewrite cos_PI2, sin_PI2. repeat f_equal; lra.
Qed.

Lemma init_backbone_third_atom (t : R) :
  let a2 := V3 1.442 0 0 in
  let a3 := V3 (- cos t * 1.498) (sin t * 1.498) 0 in
  norm2 (vsub a3 vzero) = 1.498 * 1.498
  /\ norm2 (vsub a3 a2) = 1.498 * 1.498 + 1.442 * 1.442 + 2 * 1.498 * 1.442 * cos t.
Proof.
  pose proof (sin2_cos2 t) as H. unfold Rsqr in H.
  split; vec_simpl; nra.
Qed.

(** C3 (the code at a failing input).  With the N-CA-C angle of the first
    residue equal to [PI / 2], [init_backbone] returns [(0, 0, 0)],
    [(1.442, 0, 0)] and [(0, 1.498, 0)]: the third atom is at distance
    [1.498] from the first atom (the origin), and not from the second. *)
Theorem init_backbone_right_angle :
  init_backbone [row_right] = Ok bb0_ex
  /\ dist (V3 0 1.498 0) (V3 0 0 0) = 1.498
  /\ dist (V3 0 1.498 0) (V3 1.442 0 0) <> 1.498.
Proof.
  split; [|split].
  - apply init_backbone_row_right.
  - unfold dist. replace (norm2 _) with (1.498 * 1.498) by (vec_simpl; lra).
    apply sqrt_square. lra.
  - unfold dist. intros H.
    assert (Hsq : norm2 (vsub (V3 0 1.498 0) (V3 1.442 0 0)) = 1.498 * 1.498).
    { apply sqrt_eq_sq; [apply norm2_nonneg|exact H]. }
    vec_simpl. lra.
Qed.

Lemma nerf_corner (l : R) :
  nerf (V3 0 0 0) (V3 1 0 0) (V3 1 1 0) l (PI / 2) 0 = V3 (1 - l) 1 0.
Proof. unfold nerf. l2n_known 1. l2n_known 1. l2n_known 1. vec_done. Qed.

Lemma nerf_corner_2 :
  nerf (V3 1 0 0) (V3 1 1 0) (V3 (1 - 1.379) 1 0) 1.442 (PI / 2) 0
  = V3 (1 - 1.379) (1 - 1.442) 0.
Proof. unfold nerf. l2n_known 1. l2n_known 1.379. l2n_known 1. vec_done. Qed.

Lemma nerf_corner_3 :
  nerf (V3 1 1 0) (V3 (1 - 1.379) 1 0) (V3 (1 - 1.379) (1 - 1.442) 0)
    1.498 (PI / 2) 0
  = V3 (1 - 1.379 + 1.498) (1 - 1.442) 0.
Proof. unfold nerf. l2n_known 1.379. l2n_known 1.442. l2n_known 1. vec_done. Qed.

(** C4 (the code at a failing input).  On three points at a right angle
    and right bond angles, the three NeRF steps of [extend_backbone] all
    use the context it was called with: CA and C are placed at [1.442] and
    [1.498] from the previous residue's C, on the same line as N, and the
    result differs from that of the sequential extender, whose context
    moves on after every step. *)
Theorem extend_backbone_reuses_context :
  extend_backbone 1 angles_ex coords_ex
    = Ok [V3 (1 - 1.379) 1 0; V3 (1 - 1.442) 1 0; V3 (1 - 1.498) 1 0]
  /\ extend_backbone_sequential 1 angles_ex coords_ex
    = Ok [V3 (1 - 1.379) 1 0; V3 (1 - 1.379) (1 - 1.442) 0;
          V3 (1 - 1.379 + 1.498) (1 - 1.442) 0]
  /\ dist (V3 (1 - 1.442) 1 0) (V3 (1 - 1.379) 1 0) <> 1.442
  /\ dist (V3 (1 - 1.442) 1 0) (V3 1 1 0) = 1.442.
Proof.
  split; [|split; [|split]].
  - run_backbone. rewrite !nerf_corner. reflexivity.
  - run_backbone. rewrite nerf_corner, nerf_corner_2, nerf_corner_3. reflexivity.
  - unfold dist. intros H. apply sqrt_eq_sq in H; [|apply norm2_nonneg].
    vec_simpl. lra.
  - unfold dist.
    replace (norm2 _) with (1.442 * 1.442) by (vec_simpl; lra).
    apply sqrt_square. lra.
Qed.

(* ================================================================== *)
(** * Chain assembler *)

(** Facts about the loop of [generate_coords], for any side-chain
    extender. *)
Section AssemblerFacts.

Variable aa : Type.
Variable es : extender aa.

Lemma extend_loop_blocks (angles : tensor2) (input_seq : list aa)
    (idx : list nat) :
  forall bb sc,
    extend_loop es angles input_seq idx bb sc =
      (blocks <- extend_blocks es angles input_seq idx bb sc ;;
       Ok (bb ++ concat (map fst blocks), sc ++ concat (map snd blocks))).
Proof.
  induction idx as [|i idx IH]; intros bb sc; simpl.
  - now rewrite !app_nil_r.
  - destruct (extend_backbone i angles bb) as [bb_pts|e]; simpl; [|reflexivity].
    destruct (es i angles (bb ++ bb_pts) sc input_seq) as [sc_pts|e]; simpl;
      [|reflexivity].
    rewrite IH.
    destruct (extend_blocks es angles input_seq idx (bb ++ bb_pts) (sc ++ sc_pts))
      as [blocks|e]; simpl; [|reflexivity].
    now rewrite !app_assoc.
Qed.

Lemma extend_backbone_length (i : nat) (angles : tensor2)
    (coords pts : list vec3) :
  extend_backbone i angles coords = Ok pts -> length pts = 3%nat.
Proof.
  intros H. destruct (extend_backbone_first _ _ _ _ H) as (n & ca & c & -> & _).
  reflexivity.
Qed.

Lemma extend_blocks_shape (angles : tensor2) (input_seq : list aa)
    (idx : list nat) :
  forall bb sc blocks,
    extend_blocks es angles input_seq idx bb sc = Ok blocks ->
    length blocks = length idx
    /\ Forall (fun p => length (fst p) = 3%nat) blocks.
Proof.
  induction idx as [|i idx IH]; intros bb sc blocks; simpl.
  - intros E. injection E as <-. split; [reflexivity|constructor].
  - destruct (extend_backbone i angles bb) as [bb_pts|e] eqn:Hb; simpl;
      [|discriminate].
    destruct (es i angles (bb ++ bb_pts) sc input_seq) as [sc_pts|e]; simpl;
      [|discriminate].
    destruct (extend_blocks es angles input_seq idx (bb ++ bb_pts) (sc ++ sc_pts))
      as [rest|e] eqn:Hr; simpl; [|discriminate].
    intros E. injection E as <-.
    destruct (IH _ _ _ Hr) as [Hlen Hall]. split.
    + simpl. now rewrite Hlen.
    + constructor; [|exact Hall]. simpl. eapply extend_backbone_length; eauto.
Qed.

Lemma init_backbone_length (angles : tensor2) (bb : list vec3) :
  init_backbone angles = Ok bb -> length bb = 3%nat.
Proof.
  unfold init_backbone. destruct (index2 angles 0 3); simpl; [|discriminate].
  intros E. injection E as <-. reflexivity.
Qed.

(** The order of the output: [generate_coords] returns the backbone blocks
    of all residues in sequence order (three points per residue), followed
    by the side-chain blocks of all residues in sequence order
    ([torch.stack(bb_arr + sc_arr)]), and it fails exactly when a residue
    block cannot be built; there is one pair of blocks per residue
    [0 .. max 1 pad_loc - 1]. *)
Lemma generate_coords_layout (angles : tensor2) (pad_loc : nat)
    (input_seq : list aa) :
  generate_coords es angles pad_loc input_seq =
    (blocks <- residue_blocks es angles pad_loc input_seq ;;
     Ok (backbone_then_sidechains blocks))
  /\ forall blocks,
       residue_blocks es angles pad_loc input_seq = Ok blocks ->
       length blocks = Nat.max 1 pad_loc
       /\ Forall (fun p => length (fst p) = 3%nat) blocks.
Proof.
  unfold generate_coords, residue_blocks, backbone_then_sidechains. split.
  - destruct (init_backbone angles) as [bb|e]; simpl; [|reflexivity].
    rewrite extend_loop_blocks.
    destruct (extend_blocks _ _ _ _ _ _) as [blocks|e]; simpl; reflexivity.
  - intros blocks.
    destruct (init_backbone angles) as [bb|e] eqn:Hi; simpl; [|discriminate].
    destruct (extend_blocks _ _ _ _ _ _) as [rest|e] eqn:Hr; simpl;
      [|discriminate].
    intros E. injection E as <-.
    destruct (extend_blocks_shape _ _ _ _ _ _ Hr) as [Hlen Hall].
    rewrite length_seq in Hlen. split.
    + cbn [length]. rewrite Hlen. destruct pad_loc; lia.
    + constructor; [|exact Hall]. simpl. eapply init_backbone_length; eauto.
Qed.

Lemma extend_loop_lengths (count : nat -> nat) (angles : tensor2)
    (input_seq : list aa) (idx : list nat) :
  (forall i an bb sc pts,
     es i an bb sc input_seq = Ok pts -> length pts = count i) ->
  forall bb sc st,
    extend_loop es angles input_seq idx bb sc = Ok st ->
    length (fst st) = (length bb + 3 * length idx)%nat
    /\ length (snd st) = (length sc + list_sum (map count idx))%nat.
Proof.
  intros Hc. induction idx as [|i idx IH]; intros bb sc st; simpl.
  - intros E. injection E as <-. simpl. lia.
  - destruct (extend_backbone i angles bb) as [bb_pts|e] eqn:Hb; simpl;
      [|discriminate].
    destruct (es i angles (bb ++ bb_pts) sc input_seq) as [sc_pts|e] eqn:Hs;
      simpl; [|discriminate].
    intros H. destruct (IH _ _ _ H) as [H1 H2].
    rewrite H1, H2, !length_app.
    rewrite (extend_backbone_length _ _ _ _ Hb), (Hc _ _ _ _ _ Hs). lia.
Qed.

Lemma generate_coords_length (count : nat -> nat) (angles : tensor2)
    (pad_loc : nat) (input_seq : list aa) (out : list vec3) :
  (forall i an bb sc pts,
     es i an bb sc input_seq = Ok pts -> length pts = count i) ->
  generate_coords es angles pad_loc input_seq = Ok out ->
  length out =
    (3 * Nat.max 1 pad_loc + 1 + list_sum (map count (seq 1 (pad_loc - 1))))%nat.
Proof.
  intros Hc. unfold generate_coords.
  destruct (init_backbone angles) as [bb|e] eqn:Hi; simpl; [|discriminate].
  destruct (extend_loop _ _ _ _ _ _) as [st|e] eqn:Hl; simpl; [|discriminate].
  intros E. injection E as <-.
  destruct (extend_loop_lengths count _ _ _ Hc _ _ _ Hl) as [H1 H2].
  rewrite length_app, H1, H2, length_seq, (init_backbone_length _ _ Hi).
  unfold init_sidechain. cbn [length]. destruct pad_loc; lia.
Qed.

(** C6 (the code at a failing input).  For a chain of one residue,
    whatever the side-chain extender and the residue type, the output has
    four points: three backbone atoms and the one placeholder of
    [init_sidechain], not three plus the template's count for that type. *)
Theorem generate_coords_first_residue_count (input_seq : list aa) :
  generate_coords es [row_right] 1 input_seq = Ok (bb0_ex ++ [V3 0 0 0])
  /\ length (bb0_ex ++ [V3 0 0 0]) = 4%nat.
Proof.
  split; [|reflexivity].
  unfold generate_coords. rewrite init_backbone_row_right. reflexivity.
Qed.

Lemma index2_out_of_rows (angles : tensor2) (i k : nat) :
  (length angles <= i)%nat -> index2 angles i k = Raise IndexError.
Proof.
  intros H. unfold index2.
  now rewrite (proj2 (nth_error_None angles i) H).
Qed.

Lemma extend_backbone_out_of_rows (angles : tensor2) (i : nat)
    (coords : list vec3) :
  (length angles <= i)%nat ->
  extend_backbone i angles coords = Raise IndexError.
Proof.
  intros H. rewrite extend_backbone_shared_context.
  unfold backbone_point at 1. rewrite index2_out_of_rows by exact H.
  reflexivity.
Qed.

Lemma index2_raises (angles : tensor2) (i k : nat) (e : exn) :
  index2 angles i k = Raise e -> e = IndexError.
Proof.
  unfold index2. destruct (nth_error angles i) as [row|]; [|congruence].
  destruct (nth_error row k); congruence.
Qed.

Lemma from_end_raises (coords : list vec3) (k : nat) (e : exn) :
  from_end coords k = Raise e -> e = IndexError.
Proof. unfold from_end. destruct (nth_error _ _); congruence. Qed.

Lemma backbone_point_raises (i : nat) (angles : tensor2) (coords : list vec3)
    (j : nat) (e : exn) :
  backbone_point i angles coords j = Raise e -> e = IndexError.
Proof.
  unfold backbone_point.
  assert (Hsel : forall r1 r2 (b : R),
            (t <- r1 ;; d <- r2 ;; Ok (t, b, d)) = Raise e ->
            (exists k1 i1, r1 = index2 angles i1 k1) ->
            (exists k2 i2, r2 = index2 angles i2 k2) -> e = IndexError).
  { intros r1 r2 b H (k1 & i1 & ->) (k2 & i2 & ->).
    destruct (index2 angles i1 k1) eqn:E1; simpl in H.
    - destruct (index2 angles i2 k2) eqn:E2; simpl in H; [discriminate|].
      injection H as <-. eapply index2_raises; eauto.
    - injection H as <-. eapply index2_raises; eauto. }
  match goal with
  | |- (tbd <- ?sel ;; _) = _ -> _ => destruct sel as [[[t b] d]|e0] eqn:Es
  end; simpl.
  - destruct (from_end coords 3) eqn:E3; simpl;
      [|intros H; injection H as <-; eapply from_end_raises; eauto].
    destruct (from_end coords 2) eqn:E2; simpl;
      [|intros H; injection H as <-; eapply from_end_raises; eauto].
    destruct (from_end coords 1) eqn:E1; simpl;
      [discriminate|intros H; injection H as <-; eapply from_end_raises; eauto].
  - intros H. injection H as <-.
    destruct j as [|[|j]]; eapply Hsel; eauto.
Qed.

Lemma extend_backbone_raises (i : nat) (angles : tensor2) (coords : list vec3)
    (e : exn) :
  extend_backbone i angles coords = Raise e -> e = IndexError.
Proof.
  rewrite extend_backbone_shared_context.
  destruct (backbone_point i angles coords 0) eqn:E0; simpl;
    [|intros H; injection H as <-; eapply backbone_point_raises; eauto].
  destruct (backbone_point i angles coords 1) eqn:E1; simpl;
    [|intros H; injection H as <-; eapply backbone_point_raises; eauto].
  destruct (backbone_point i angles coords 2) eqn:E2; simpl;
    [discriminate|intros H; injection H as <-; eapply backbone_point_raises; eauto].
Qed.

Lemma extend_loop_past_rows (angles : tensor2) (input_seq : list aa)
    (idx : list nat) (i : nat) :
  In i idx -> (length angles <= i)%nat ->
  forall bb sc,
    (exists e, extend_loop es angles input_seq idx bb sc = Raise e)
    /\ ((forall j an b s q, is_ok (es j an b s q)) ->
        extend_loop es angles input_seq idx bb sc = Raise IndexError).
Proof.
  intros Hin Hi. induction idx as [|j idx IH]; [contradiction|].
  intros bb sc. simpl.
  destruct (extend_backbone j angles bb) as [bb_pts|e] eqn:Hb; simpl.
  - destruct Hin as [->|Hin].
    { rewrite extend_backbone_out_of_rows in Hb by exact Hi. discriminate. }
    destruct (es j angles (bb ++ bb_pts) sc input_seq) as [sc_pts|e] eqn:Hs; simpl.
    + apply IH. exact Hin.
    + split; [eauto|]. intros Hok.
      specialize (Hok j angles (bb ++ bb_pts) sc input_seq).
      rewrite Hs in Hok. contradiction.
  - split; [eauto|]. intros _. f_equal. eapply extend_backbone_raises; eauto.
Qed.

(** C9.  If [pad_loc] exceeds the number of rows of [angles],
    [generate_coords] raises instead of returning coordinates; when the
    side-chain extender itself never fails the exception is the
    [IndexError] of the row lookup. *)
Theorem generate_coords_past_table (angles : tensor2) (pad_loc : nat)
    (input_seq : list aa) (Hpad : (length angles < pad_loc)%nat) :
  (exists e, generate_coords es angles pad_loc input_seq = Raise e)
  /\ ((forall j an b s q, is_ok (es j an b s q)) ->
      generate_coords es angles pad_loc input_seq = Raise IndexError).
Proof.
  unfold generate_coords.
  destruct (init_backbone angles) as [bb|e] eqn:Hi; simpl.
  - assert (Hrows : (1 <= length angles)%nat).
    { destruct angles; [discriminate|simpl; lia]. }
    destruct (extend_loop_past_rows angles input_seq (seq 1 (pad_loc - 1))
                (length angles)) with (bb := bb) (sc := init_sidechain angles bb)
      as [[e He] Hix].
    + apply in_seq. lia.
    + lia.
    + rewrite He. simpl. split; [eauto|].
      intros Hok. specialize (Hix Hok). congruence.
  - split; [eauto|]. intros _. f_equal.
    unfold init_backbone in Hi.
    destruct (index2 angles 0 3) eqn:E; simpl in Hi; [discriminate|].
    injection Hi as <-. eapply index2_raises; eauto.
Qed.

End AssemblerFacts.

Lemma extend_backbone_ex :
  extend_backbone 1 angles_ex bb0_ex = Ok bb1_ex.
Proof.
  cbv beta iota zeta delta
    [extend_backbone backbone_rounds seq backbone_point index2 angles_ex
     row_right nth_error bind from_end bb0_ex rev app Nat.sub bondlens].
  reflexivity.
Qed.

Lemma generate_coords_two_residues :
  generate_coords no_sidechain angles_ex 2 [] = Ok (bb0_ex ++ bb1_ex ++ [vzero]).
Proof.
  unfold generate_coords, angles_ex. rewrite init_backbone_row_right.
  cbn [bind Nat.sub seq extend_loop]. fold angles_ex.
  rewrite extend_backbone_ex. reflexivity.
Qed.

Lemma residue_blocks_two_residues :
  residue_blocks no_sidechain angles_ex 2 [] = Ok blocks_ex.
Proof.
  unfold residue_blocks, angles_ex. rewrite init_backbone_row_right.
  cbn [bind Nat.sub seq extend_blocks]. fold angles_ex.
  rewrite extend_backbone_ex. reflexivity.
Qed.

Lemma init_context_conditioned :
  eps <= norm2 (vsub (V3 0 1.498 0) (V3 1.442 0 0))
  /\ eps <= norm2 (cross (l2_normalize (vsub (V3 1.442 0 0) (V3 0 0 0)))
                         (l2_normalize (vsub (V3 0 1.498 0) (V3 1.442 0 0)))).
Proof.
  assert (Hx : eps <= norm2 (vsub (V3 0 1.498 0) (V3 1.442 0 0))) by side.
  split; [exact Hx|].
  l2n_known 1.442.
  unfold l2_normalize. rewrite Rmax_left by exact Hx.
  rewrite cross_vdiv_r.
  assert (Hpos : 0 < norm2 (vsub (V3 0 1.498 0) (V3 1.442 0 0))).
  { pose proof eps_pos. lra. }
  rewrite norm2_vdiv by (pose proof (sqrt_lt_R0 _ Hpos); lra).
  rewrite sqrt_sqrt by lra.
  side.
Qed.

Lemma first_N_not_origin :
  nerf (V3 0 0 0) (V3 1.442 0 0) (V3 0 1.498 0) 1.379 (PI / 2) 0 <> vzero.
Proof.
  intros H. destruct init_context_conditioned as [Hx Hn].
  pose proof (nerf_dist _ _ _ Hx Hn 1.379 (PI / 2) 0 ltac:(lra)) as Hd.
  rewrite H in Hd. unfold dist in Hd.
  apply sqrt_eq_sq in Hd; [|apply norm2_nonneg].
  revert Hd. vec_simpl. lra.
Qed.

(** C5 (the code on a failing input).  The docstring of [generate_coords]
    promises the layout [L x A' x 3], the atoms grouped by residue, as the
    specification does.  For two residues without side-chain points the
    code returns the six backbone points followed by the initial side-chain
    point, which is not the layout by residue: there the initial side-chain
    point is fourth, where the output has the N atom of residue [1], and
    that atom is not at the origin. *)
Lemma generate_coords_not_interleaved :
  residue_blocks no_sidechain angles_ex 2 [] = Ok blocks_ex
  /\ generate_coords no_sidechain angles_ex 2 []
     = Ok (backbone_then_sidechains blocks_ex)
  /\ generate_coords no_sidechain angles_ex 2 [] <> Ok (interleaved blocks_ex).
Proof.
  split; [exact residue_blocks_two_residues|].
  rewrite generate_coords_two_residues. split; [reflexivity|].
  unfold interleaved, blocks_ex, bb0_ex, bb1_ex. cbn [map concat fst snd app].
  intros H. apply first_N_not_origin.
  exact (f_equal (fun r => match r with
                           | Ok pts => nth 3 pts vzero
                           | Raise _ => vzero
                           end) H).
Qed.

(** The initial side chain in the output of [generate_coords]. *)
Section Placeholder.

Variable aa : Type.
Variable es : extender aa.

Lemma extend_loop_shape (angles : tensor2) (input_seq : list aa)
    (idx : list nat) :
  forall bb sc st,
    extend_loop es angles input_seq idx bb sc = Ok st ->
    length (fst st) = (length bb + 3 * length idx)%nat
    /\ exists tail, snd st = sc ++ tail.
Proof.
  intros bb sc st. rewrite extend_loop_blocks.
  destruct (extend_blocks es angles input_seq idx bb sc) as [blocks|e] eqn:Hb;
    cbn [bind]; [|discriminate].
  intros E. injection E as <-. cbn [fst snd]. split; [|eauto].
  destruct (extend_blocks_shape _ _ _ _ _ _ _ _ Hb) as [Hlen Hall].
  rewrite length_app, <- Hlen. f_equal.
  clear Hb Hlen. induction Hall as [|p blocks Hp _ IH]; [reflexivity|].
  cbn [map concat length]. rewrite length_app, Hp, IH. lia.
Qed.

Lemma extend_loop_ext (es' : extender aa)
    (angles : tensor2) (input_seq : list aa) (idx : list nat) :
  (forall i an bb sc, In i idx ->
     es' i an bb sc input_seq = es i an bb sc input_seq) ->
  forall bb sc,
    extend_loop es' angles input_seq idx bb sc
    = extend_loop es angles input_seq idx bb sc.
Proof.
  induction idx as [|i idx IH]; intros Hext bb sc; [reflexivity|].
  cbn [extend_loop].
  destruct (extend_backbone i angles bb) as [bb_pts|e]; cbn [bind];
    [|reflexivity].
  rewrite Hext by (left; reflexivity).
  destruct (es i angles (bb ++ bb_pts) sc input_seq) as [sc_pts|e]; cbn [bind];
    [|reflexivity].
  apply IH. intros j an b s Hj. apply Hext. right. exact Hj.
Qed.

(** C10.  [init_sidechain] ignores its arguments and returns the single
    point [(0, 0, 0)]; whenever [generate_coords] returns, that point is the
    first one after the [3 * max 1 pad_loc] backbone points; and the result
    does not depend on what the side-chain extender does at residue [0]. *)
Theorem init_sidechain_placeholder (angles : tensor2) (pad_loc : nat)
    (input_seq : list aa) (out : list vec3)
    (Hout : generate_coords es angles pad_loc input_seq = Ok out) :
  (forall an bb, init_sidechain an bb = [vzero])
  /\ nth_error out (3 * Nat.max 1 pad_loc) = Some vzero
  /\ forall es' : extender aa,
       (forall i an bb sc, (1 <= i)%nat ->
          es' i an bb sc input_seq = es i an bb sc input_seq) ->
       generate_coords es' angles pad_loc input_seq = Ok out.
Proof.
  split; [reflexivity|]. split.
  - unfold generate_coords in Hout.
    destruct (init_backbone angles) as [bb|e] eqn:Hi; cbn [bind] in Hout;
      [|discriminate].
    destruct (extend_loop _ _ _ _ _ _) as [st|e] eqn:Hl; cbn [bind] in Hout;
      [|discriminate].
    injection Hout as <-.
    destruct (extend_loop_shape _ _ _ _ _ _ Hl) as [Hlen [tail Htail]].
    rewrite length_seq, (init_backbone_length _ _ Hi) in Hlen.
    rewrite nth_error_app2 by (destruct pad_loc; lia).
    replace (3 * Nat.max 1 pad_loc - length (fst st))%nat with 0%nat
      by (destruct pad_loc; lia).
    rewrite Htail. reflexivity.
  - intros es' Hext. rewrite <- Hout. unfold generate_coords.
    destruct (init_backbone angles) as [bb|e]; cbn [bind]; [|reflexivity].
    rewrite (extend_loop_ext es'); [reflexivity|].
    intros i an b s Hin. apply Hext. apply in_seq in Hin. lia.
Qed.

End Placeholder.

(** Witness of C10: two residues without side-chain points. *)
Lemma init_sidechain_placeholder_witness :
  generate_coords no_sidechain angles_ex 2 [] = Ok (bb0_ex ++ bb1_ex ++ [vzero])
  /\ ((forall an bb, init_sidechain an bb = [vzero])
      /\ nth_error (bb0_ex ++ bb1_ex ++ [vzero]) (3 * Nat.max 1 2) = Some vzero
      /\ forall es' : extender nat,
           (forall i an bb sc, (1 <= i)%nat ->
              es' i an bb sc [] = no_sidechain i an bb sc []) ->
           generate_coords es' angles_ex 2 [] = Ok (bb0_ex ++ bb1_ex ++ [vzero])).
Proof.
  split; [exact generate_coords_two_residues|].
  apply (init_sidechain_placeholder nat no_sidechain angles_ex 2 []
           (bb0_ex ++ bb1_ex ++ [vzero]) generate_coords_two_residues).
Defined.

(** Witness of C9: two rows and [pad_loc = 3]. *)
Lemma generate_coords_past_table_witness :
  (length angles_ex < 3)%nat
  /\ ((exists e, generate_coords no_sidechain angles_ex 3 [] = Raise e)
      /\ ((forall j an b s q, is_ok (no_sidechain j an b s q)) ->
          generate_coords no_sidechain angles_ex 3 [] = Raise IndexError)).
Proof.
  assert (H : (length angles_ex < 3)%nat) by (simpl; lia).
  split; [exact H|].
  apply (generate_coords_past_table nat no_sidechain angles_ex 3 [] H).
Defined.

(* ================================================================== *)
(** * Dihedral round trip *)

Lemma cross_on_frame (a1 a2 : vec3) (p beta gamma : R) :
  cross a2 (on_frame a1 a2 p beta gamma) =
    vsub (vscale (beta * norm2 a2) (cross a1 a2))
         (vscale gamma (cross (cross a1 a2) a2)).
Proof. unfold on_frame. destruct a1, a2. vec_simpl. f_equal; ring. Qed.

Lemma norm2_cross_on_frame (a1 a2 : vec3) (p beta gamma : R) :
  norm2 (cross a2 (on_frame a1 a2 p beta gamma)) =
    norm2 (cross a1 a2) * norm2 a2 * (beta * beta * norm2 a2 + gamma * gamma).
Proof. rewrite cross_on_frame. destruct a1, a2. vec_simpl. ring. Qed.

Lemma dot_normal_cross_on_frame (a1 a2 : vec3) (p beta gamma : R) :
  dot (cross a1 a2) (cross a2 (on_frame a1 a2 p beta gamma)) =
    beta * norm2 a2 * norm2 (cross a1 a2).
Proof. rewrite cross_on_frame. destruct a1, a2. vec_simpl. ring. Qed.

Lemma dot_normal_on_frame (a1 a2 : vec3) (p beta gamma : R) :
  dot (cross a1 a2) (on_frame a1 a2 p beta gamma) =
    gamma * norm2 (cross a1 a2).
Proof. unfold on_frame. destruct a1, a2. vec_simpl. ring. Qed.


Lemma sign_pos (x : R) : 0 < x -> sign x = 1.
Proof. intros H. unfold sign. destruct (Rlt_dec 0 x); [reflexivity|contradiction]. Qed.

Lemma sign_neg (x : R) : x < 0 -> sign x = -1.
Proof.
  intros H. unfold sign. destruct (Rlt_dec 0 x); [lra|].
  destruct (Rlt_dec x 0); [reflexivity|contradiction].
Qed.

Lemma sign_zero : sign 0 = 0.
Proof.
  unfold sign. destruct (Rlt_dec 0 0); [lra|]. destruct (Rlt_dec 0 0); [lra|].
  reflexivity.
Qed.

Lemma sign_scale (k x : R) : 0 < k -> sign (k * x) = sign x.
Proof.
  intros Hk. destruct (Rtotal_order x 0) as [H|[->|H]].
  - rewrite !sign_neg; [reflexivity|exact H|nra].
  - now rewrite Rmult_0_r.
  - rewrite !sign_pos; [reflexivity|lra|nra].
Qed.

Lemma arccos_input_of_cos (x tol : R) : arccos_input_of (cos x) tol = Ok (cos x).
Proof.
  pose proof (COS_bound x) as [H1 H2]. unfold arccos_input_of.
  destruct (Rle_dec (-1) (cos x)); [|contradiction].
  destruct (Rle_dec (cos x) 1); [reflexivity|contradiction].
Qed.

Lemma getDihedral_on_frame (c1 c2 c3 c4 : vec3) (p B u chi : R) :
  norm2 (cross (vsub c2 c1) (vsub c3 c2)) <> 0 ->
  0 < u -> u * u = norm2 (vsub c3 c2) -> 0 < B ->
  vsub c4 c3 =
    on_frame (vsub c2 c1) (vsub c3 c2) p (B * cos chi) (B * u * sin chi) ->
  getDihedral c1 c2 c3 c4 true = Ok (signed_acos chi).
Proof.
  intros HN Hu Huu HB Ha3. unfold getDihedral. cbv zeta. rewrite Ha3.
  set (a1 := vsub c2 c1) in *. set (a2 := vsub c3 c2) in *.
  set (a3 := on_frame a1 a2 p (B * cos chi) (B * u * sin chi)).
  set (M := norm2 (cross a1 a2)) in *.
  assert (HM : 0 < M).
  { destruct (norm2_nonneg (cross a1 a2)) as [H|H]; [exact H|].
    exfalso. apply HN. symmetry. exact H. }
  set (m := sqrt M).
  assert (Hm : 0 < m) by (apply sqrt_lt_R0; exact HM).
  assert (Hmm : m * m = M) by (apply sqrt_sqrt; lra).
  assert (HV : norm2 (cross a2 a3) = (m * (norm2 a2 * B)) * (m * (norm2 a2 * B))).
  { unfold a3. rewrite norm2_cross_on_frame. fold M. rewrite <- Hmm, <- Huu.
    pose proof (sin2_cos2 chi) as Hc. unfold Rsqr in Hc.
    transitivity (m * m * (u * u) * (B * B * (u * u)
                                      * (sin chi * sin chi + cos chi * cos chi)));
      [ring|rewrite Hc; ring]. }
  assert (HK : 0 < m * (norm2 a2 * B)).
  { rewrite <- Huu. repeat apply Rmult_lt_0_compat; assumption. }
  destruct (Req_dec_T M 0) as [E|_]; [lra|].
  assert (HU : 0 < norm2 a2) by (rewrite <- Huu; nra).
  set (K := m * (norm2 a2 * B)) in *.
  destruct (Req_dec_T (norm2 (cross a2 a3)) 0) as [E|_]; [rewrite HV in E; nra|].
  rewrite HV, sqrt_square by lra. fold m.
  rewrite !norm2_vdiv by lra. fold M. rewrite HV.
  replace (M / (m * m)) with 1 by (rewrite Hmm; field; lra).
  replace (K * K / (K * K)) with 1 by (field; lra).
  rewrite Rmult_1_r, sqrt_1.
  rewrite dot_vdiv_l, dot_vdiv_r, dot_vdiv_l.
  unfold a3. rewrite dot_normal_cross_on_frame, !dot_normal_on_frame.
  fold M. unfold K. rewrite <- Hmm.
  replace (B * cos chi * norm2 a2 * (m * m) / (m * (norm2 a2 * B)) / m / 1)
    with (cos chi) by (field; lra).
  replace (B * u * sin chi * (m * m) / m) with ((B * u * m) * sin chi)
    by (field; lra).
  rewrite sign_scale by (repeat apply Rmult_lt_0_compat; assumption).
  rewrite arccos_input_of_cos. reflexivity.
Qed.

Lemma signed_acos_nonneg (chi : R) :
  0 <= sin chi -> signed_acos chi = acos (cos chi).
Proof.
  intros [H|H]; unfold signed_acos.
  - rewrite sign_pos by exact H.
    destruct (Req_dec_T 1 0); [lra|ring].
  - rewrite <- H, sign_zero.
    destruct (Req_dec_T 0 0) as [_|n]; [reflexivity|contradiction].
Qed.

Lemma signed_acos_neg (chi : R) :
  sin chi < 0 -> signed_acos chi = - acos (cos chi).
Proof.
  intros H. unfold signed_acos. rewrite sign_neg by exact H.
  destruct (Req_dec_T (-1) 0); [lra|ring].
Qed.

Lemma sin_acos_cos (chi : R) : sin (acos (cos chi)) = Rabs (sin chi).
Proof.
  rewrite sin_acos by apply COS_bound.
  replace (1 - (cos chi)²) with ((sin chi)²).
  - apply sqrt_Rsqr_abs.
  - pose proof (sin2_cos2 chi). lra.
Qed.

Lemma signed_acos_cos (chi : R) : cos (signed_acos chi) = cos chi.
Proof.
  destruct (Rle_lt_dec 0 (sin chi)) as [H|H].
  - rewrite signed_acos_nonneg by exact H. apply cos_acos, COS_bound.
  - rewrite signed_acos_neg by exact H. rewrite cos_neg.
    apply cos_acos, COS_bound.
Qed.

Lemma signed_acos_sin (chi : R) : sin (signed_acos chi) = sin chi.
Proof.
  destruct (Rle_lt_dec 0 (sin chi)) as [H|H].
  - rewrite signed_acos_nonneg by exact H. rewrite sin_acos_cos.
    apply Rabs_right. lra.
  - rewrite signed_acos_neg by exact H. rewrite sin_neg, sin_acos_cos.
    rewrite Rabs_left by exact H. ring.
Qed.

Lemma same_angle (r chi : R) :
  cos r = cos chi -> sin r = sin chi ->
  exists k : Z, r = chi + 2 * IZR k * PI.
Proof.
  intros Hc Hs.
  assert (H1 : cos (2 * ((r - chi) / 2)) = 1).
  { replace (2 * ((r - chi) / 2)) with (r - chi) by field.
    rewrite cos_minus, Hc, Hs.
    pose proof (sin2_cos2 chi) as H. unfold Rsqr in H. lra. }
  rewrite cos_2a_sin in H1.
  assert (H0 : sin ((r - chi) / 2) = 0) by nra.
  destruct (sin_eq_0_0 _ H0) as [k Hk].
  exists k. lra.
Qed.

Lemma cos_shift_turns (x : R) (k : Z) : cos (x + 2 * IZR k * PI) = cos x.
Proof.
  assert (Hs : sin (IZR k * PI) = 0) by (apply sin_eq_0_1; eauto).
  replace (x + 2 * IZR k * PI) with (x + 2 * (IZR k * PI)) by ring.
  rewrite cos_plus, sin_2a, cos_2a_sin, Hs. ring.
Qed.

Lemma signed_acos_mod_turn (chi : R) :
  exists k : Z, signed_acos chi = chi + 2 * IZR k * PI.
Proof. apply same_angle; [apply signed_acos_cos|apply signed_acos_sin]. Qed.

Lemma nerf_on_frame (a b c : vec3) (l theta chi : R) :
  eps <= norm2 (vsub c b) ->
  exists D, 0 < D /\
    vsub (nerf a b c l theta chi) c =
      on_frame (vsub b a) (vsub c b)
        (- l * cos theta / sqrt (norm2 (vsub c b)))
        (l * sin theta / D * cos chi)
        (l * sin theta / D * sqrt (norm2 (vsub c b)) * sin chi).
Proof.
  intros Hx. unfold nerf. cbv zeta. rewrite vsub_vadd_l.
  set (a1 := vsub b a). set (a2 := vsub c b) in *.
  assert (Hu : 0 < sqrt (norm2 a2)).
  { apply sqrt_lt_R0. pose proof eps_pos. lra. }
  unfold l2_normalize.
  rewrite (Rmax_left (norm2 a2) eps) by exact Hx.
  set (u := sqrt (norm2 a2)) in *.
  pose proof (l2_den_floor a1) as Hs.
  set (s := sqrt (Rmax (norm2 a1) eps)) in *.
  pose proof (l2_den_floor (cross (vdiv a1 s) (vdiv a2 u))) as Ht.
  set (t := sqrt (Rmax (norm2 (cross (vdiv a1 s) (vdiv a2 u))) eps)) in *.
  exists (u * u * s * t). split.
  - repeat apply Rmult_lt_0_compat; lra.
  - clearbody t. clearbody s. clearbody u. clearbody a1 a2.
    destruct a1, a2. unfold on_frame. vec_simpl. f_equal; field; lra.
Qed.

Lemma quarter_turn_bounds : 0 < PI / 2 < PI.
Proof. pose proof PI_RGT_0. lra. Qed.

(** C7 (amended).  For a non-collinear context whose bond [c - b] is not
    below the floor of [l2_normalize] ([1e-12 <= |c - b|^2]), [l > 0] and
    [0 < theta < PI], [getDihedral] on [a], [b], [c] and the point placed by
    [nerf] returns an angle equal to [chi] modulo [2 PI]. *)
Theorem dihedral_round_trip (a b c : vec3) (l theta chi : R)
    (Hnc : cross (vsub b a) (vsub c b) <> vzero)
    (Hx : eps <= norm2 (vsub c b))
    (Hl : 0 < l)
    (Ht : 0 < theta < PI) :
  exists (r : R) (k : Z),
    getDihedral a b c (nerf a b c l theta chi) true = Ok r
    /\ r = chi + 2 * IZR k * PI.
Proof.
  destruct (nerf_on_frame a b c l theta chi Hx) as (D & HD & Ha3).
  destruct (signed_acos_mod_turn chi) as [k Hk].
  exists (signed_acos chi), k. split; [|exact Hk].
  assert (Hpos : 0 < norm2 (vsub c b)) by (pose proof eps_pos; lra).
  eapply getDihedral_on_frame; [| | | |exact Ha3].
  - intros H. apply Hnc. apply norm2_zero_iff. exact H.
  - apply sqrt_lt_R0. exact Hpos.
  - apply sqrt_sqrt. lra.
  - pose proof (sin_gt_0 theta (proj1 Ht) (proj2 Ht)) as Hsin.
    apply Rdiv_lt_0_compat; [|exact HD]. apply Rmult_lt_0_compat; assumption.
Qed.

(** Witness of C7 (amended): unit bonds at a right angle, [chi = PI / 4]. *)
Lemma dihedral_round_trip_witness :
  cross (vsub (V3 1 0 0) (V3 0 0 0)) (vsub (V3 1 1 0) (V3 1 0 0)) <> vzero
  /\ eps <= norm2 (vsub (V3 1 1 0) (V3 1 0 0))
  /\ 0 < 1.379
  /\ 0 < PI / 2 < PI
  /\ exists (r : R) (k : Z),
       getDihedral (V3 0 0 0) (V3 1 0 0) (V3 1 1 0)
         (nerf (V3 0 0 0) (V3 1 0 0) (V3 1 1 0) 1.379 (PI / 2) (PI / 4)) true
       = Ok r
       /\ r = PI / 4 + 2 * IZR k * PI.
Proof.
  assert (H1 : cross (vsub (V3 1 0 0) (V3 0 0 0)) (vsub (V3 1 1 0) (V3 1 0 0))
               <> vzero).
  { vec_simpl. intros E. injection E as _ _ E. lra. }
  assert (H2 : eps <= norm2 (vsub (V3 1 1 0) (V3 1 0 0))) by side.
  assert (H3 : 0 < 1.379) by lra.
  split; [exact H1|]. split; [exact H2|]. split; [exact H3|].
  split; [exact quarter_turn_bounds|].
  apply (dihedral_round_trip (V3 0 0 0) (V3 1 0 0) (V3 1 1 0) 1.379 (PI / 2)
           (PI / 4) H1 H2 H3 quarter_turn_bounds).
Defined.

Lemma sqrt2_pos : 0 < sqrt 2.
Proof. apply sqrt_lt_R0. lra. Qed.

Lemma sqrt2_sqr : sqrt 2 * sqrt 2 = 2.
Proof. apply sqrt_sqrt. lra. Qed.

Lemma nerf_short_value :
  nerf short_a short_b short_c 1 (PI / 2) (PI / 4)
  = V3 (1 - 0.75 / sqrt 2) 7.5e-7 (1 / sqrt 2).
Proof.
  unfold nerf, short_a, short_b, short_c.
  l2n_known 1. l2n_small. l2n_known 0.75.
  vec_simpl. rewrite cos_PI2, sin_PI2, cos_PI4, sin_PI4.
  unfold Rdiv. set (q := / sqrt 2). f_equal; lra.
Qed.

Lemma cos_acos_35 : cos (acos (3 / 5)) = 3 / 5.
Proof. apply cos_acos. lra. Qed.

Lemma sin_acos_35 : sin (acos (3 / 5)) = 4 / 5.
Proof.
  rewrite sin_acos by lra. unfold Rsqr.
  replace (1 - 3 / 5 * (3 / 5)) with (4 / 5 * (4 / 5)) by field.
  apply sqrt_square. lra.
Qed.

Lemma getDihedral_short_value :
  getDihedral short_a short_b short_c
    (nerf short_a short_b short_c 1 (PI / 2) (PI / 4)) true
  = Ok (acos (3 / 5)).
Proof.
  rewrite nerf_short_value.
  pose proof sqrt2_pos as H2.
  rewrite (getDihedral_on_frame short_a short_b short_c _ 0
             (1.25 / (7.5e-7 * 7.5e-7) / sqrt 2) 7.5e-7 (acos (3 / 5))).
  - f_equal. rewrite signed_acos_nonneg by (rewrite sin_acos_35; lra).
    rewrite cos_acos_35. reflexivity.
  - unfold short_a, short_b, short_c. vec_simpl. lra.
  - lra.
  - unfold short_b, short_c. vec_simpl. lra.
  - apply Rdiv_lt_0_compat; [lra|exact H2].
  - rewrite cos_acos_35, sin_acos_35.
    unfold on_frame, short_a, short_b, short_c. vec_simpl.
    unfold Rdiv. set (q := / sqrt 2). f_equal; lra.
Qed.

(** Counterexample to C7: with [|c - b| = 7.5e-7] the context is not
    collinear, yet for [chi = PI / 4] the measured dihedral is
    [acos (3 / 5)], which is not [PI / 4] modulo [2 PI]. *)
Lemma dihedral_not_recovered_short_bond :
  cross (vsub short_b short_a) (vsub short_c short_b) <> vzero
  /\ getDihedral short_a short_b short_c
       (nerf short_a short_b short_c 1 (PI / 2) (PI / 4)) true
     = Ok (acos (3 / 5))
  /\ ~ exists k : Z, acos (3 / 5) = PI / 4 + 2 * IZR k * PI.
Proof.
  split; [|split].
  - unfold short_a, short_b, short_c. vec_simpl.
    intros E. injection E as _ _ E. lra.
  - exact getDihedral_short_value.
  - intros [k Hk].
    pose proof (f_equal cos Hk) as Hc.
    rewrite cos_acos_35, cos_shift_turns, cos_PI4 in Hc.
    pose proof sqrt2_pos as H2. pose proof sqrt2_sqr as H22.
    assert (H : 3 / 5 * sqrt 2 = 1).
    { rewrite Hc. field. lra. }
    nra.
Qed.

(* ================================================================== *)
(** * Further properties of the NeRF step *)


Lemma cross_cross_l (z x : vec3) :
  cross x (cross z x) = vsub (vscale (norm2 x) z) (vscale (dot x z) x).
Proof. destruct z, x. vec_simpl. f_equal; ring. Qed.

Lemma cross_cross_r (z x : vec3) :
  cross (cross z x) z = vsub (vscale (norm2 z) x) (vscale (dot z x) z).
Proof. destruct z, x. vec_simpl. f_equal; ring. Qed.

(** X1.  In exact real arithmetic, for every context, [nerf] returns
    [c + M d] for the matrix [M] of the three frame vectors that it builds
    and the displacement [d], and these three vectors are mutually
    orthogonal, none being longer than a unit vector. *)
Theorem nerf_frame_orthogonal (a b c : vec3) :
  let x_hat := l2_normalize (vsub c b) in
  let z_hat := l2_normalize (cross (l2_normalize (vsub b a)) x_hat) in
  let y_hat := cross z_hat x_hat in
  (forall l theta chi,
     nerf a b c l theta chi
     = vadd c (mm (Cols x_hat y_hat z_hat) (displacement l theta chi)))
  /\ dot x_hat y_hat = 0 /\ dot y_hat z_hat = 0 /\ dot z_hat x_hat = 0
  /\ norm2 x_hat <= 1 /\ norm2 y_hat <= 1 /\ norm2 z_hat <= 1.
Proof.
  cbv zeta. split; [intros l theta chi; reflexivity|].
  set (x := l2_normalize (vsub c b)).
  set (z := l2_normalize (cross (l2_normalize (vsub b a)) x)).
  assert (Hzx : dot z x = 0).
  { unfold z. unfold l2_normalize at 1. rewrite dot_vdiv_l, dot_cross_r.
    unfold Rdiv. ring. }
  pose proof (norm2_l2_normalize_le (vsub c b)) as Hx1. fold x in Hx1.
  pose proof (norm2_l2_normalize_le (cross (l2_normalize (vsub b a)) x)) as Hz1.
  fold z in Hz1.
  pose proof (norm2_nonneg x) as Hx0. pose proof (norm2_nonneg z) as Hz0.
  repeat split.
  - rewrite dot_comm. apply dot_cross_r.
  - apply dot_cross_l.
  - exact Hzx.
  - exact Hx1.
  - rewrite norm2_cross, Hzx. nra.
  - exact Hz1.
Qed.

(** X2.  In exact real arithmetic, when the floor of [l2_normalize] is
    inactive for the bond [c - b] and for the normal, the frame with which
    [nerf] places its point ([nerf] returns [c + M d]) is orthonormal and
    right-handed: [x x y = z], [y x z = x], [z x x = y]. *)
Theorem nerf_frame_orthonormal (a b c : vec3)
    (Hx : eps <= norm2 (vsub c b))
    (Hn : eps <= norm2 (cross (l2_normalize (vsub b a))
                              (l2_normalize (vsub c b)))) :
  let x_hat := l2_normalize (vsub c b) in
  let z_hat := l2_normalize (cross (l2_normalize (vsub b a)) x_hat) in
  let y_hat := cross z_hat x_hat in
  (forall l theta chi,
     nerf a b c l theta chi
     = vadd c (mm (Cols x_hat y_hat z_hat) (displacement l theta chi)))
  /\ norm2 x_hat = 1 /\ norm2 y_hat = 1 /\ norm2 z_hat = 1
  /\ cross x_hat y_hat = z_hat /\ cross y_hat z_hat = x_hat
  /\ cross z_hat x_hat = y_hat.
Proof.
  cbv zeta. split; [intros l theta chi; reflexivity|].
  pose proof (frame_x_unit b c Hx) as H1.
  pose proof (frame_z_unit a b c Hn) as H3.
  pose proof (frame_y_unit a b c Hx Hn) as H2.
  pose proof (frame_zx a b c) as Hzx.
  cbv zeta in *.
  set (x := l2_normalize (vsub c b)) in *.
  set (z := l2_normalize (cross (l2_normalize (vsub b a)) x)) in *.
  repeat split; try assumption.
  - rewrite cross_cross_l, H1, (dot_comm x z), Hzx.
    destruct z. vec_simpl. f_equal; ring.
  - rewrite cross_cross_r, H3, Hzx.
    destruct x. vec_simpl. f_equal; ring.
Qed.

(** Witness of X2: unit bonds at a right angle. *)
Lemma nerf_frame_orthonormal_witness :
  eps <= norm2 (vsub (V3 1 1 0) (V3 1 0 0))
  /\ eps <= norm2 (cross (l2_normalize (vsub (V3 1 0 0) (V3 0 0 0)))
                         (l2_normalize (vsub (V3 1 1 0) (V3 1 0 0))))
  /\ (let x_hat := l2_normalize (vsub (V3 1 1 0) (V3 1 0 0)) in
      let z_hat :=
        l2_normalize (cross (l2_normalize (vsub (V3 1 0 0) (V3 0 0 0))) x_hat) in
      let y_hat := cross z_hat x_hat in
      (forall l theta chi,
         nerf (V3 0 0 0) (V3 1 0 0) (V3 1 1 0) l theta chi
         = vadd (V3 1 1 0)
             (mm (Cols x_hat y_hat z_hat) (displacement l theta chi)))
      /\ norm2 x_hat = 1 /\ norm2 y_hat = 1 /\ norm2 z_hat = 1
      /\ cross x_hat y_hat = z_hat /\ cross y_hat z_hat = x_hat
      /\ cross z_hat x_hat = y_hat).
Proof.
  destruct coords_ex_conditioned as [Hx Hn].
  split; [exact Hx|]. split; [exact Hn|].
  exact (nerf_frame_orthonormal (V3 0 0 0) (V3 1 0 0) (V3 1 1 0) Hx Hn).
Defined.



Lemma l2_normalize_vzero : l2_normalize vzero = vzero.
Proof. unfold l2_normalize, vzero. vec_simpl. unfold Rdiv. f_equal; ring. Qed.

(** X4.  In exact real arithmetic, for a collinear context
    ([(b - a) x (c - b) = 0] exactly) the normal and the third frame vector
    vanish, and [nerf] returns [c - l cos theta * l2_normalize (c - b)]: a
    point on the line through [b] and [c], whatever the dihedral [chi].
    (In floating point the cross product of a collinear context need not
    be exactly zero; the statement is about exact products.) *)
Theorem nerf_collinear (a b c : vec3) (l theta chi : R)
    (Hc : cross (vsub b a) (vsub c b) = vzero) :
  nerf a b c l theta chi
  = vsub c (vscale (l * cos theta) (l2_normalize (vsub c b))).
Proof.
  unfold nerf. cbv zeta.
  assert (Hn : cross (l2_normalize (vsub b a)) (l2_normalize (vsub c b)) = vzero).
  { unfold l2_normalize. rewrite cross_vdiv_l, cross_vdiv_r, Hc.
    vec_simpl. unfold Rdiv. f_equal; ring. }
  rewrite Hn, l2_normalize_vzero.
  set (x := l2_normalize (vsub c b)). clearbody x.
  destruct x, c. vec_simpl. f_equal; ring.
Qed.

(** Witness of X4: three points on the first axis. *)
Lemma nerf_collinear_witness :
  cross (vsub (V3 1 0 0) (V3 0 0 0)) (vsub (V3 3 0 0) (V3 1 0 0)) = vzero
  /\ nerf (V3 0 0 0) (V3 1 0 0) (V3 3 0 0) 1.379 (PI / 3) (PI / 4)
     = vsub (V3 3 0 0)
         (vscale (1.379 * cos (PI / 3))
            (l2_normalize (vsub (V3 3 0 0) (V3 1 0 0)))).
Proof.
  assert (H : cross (vsub (V3 1 0 0) (V3 0 0 0)) (vsub (V3 3 0 0) (V3 1 0 0))
              = vzero).
  { vec_simpl. f_equal; ring. }
  split; [exact H|].
  exact (nerf_collinear (V3 0 0 0) (V3 1 0 0) (V3 3 0 0) 1.379 (PI / 3)
           (PI / 4) H).
Defined.

(** X5.  [nerf] commutes with translations: moving [a], [b] and [c] by [t]
    moves the placed point by [t]. *)
Theorem nerf_translate (a b c t : vec3) (l theta chi : R) :
  nerf (vadd a t) (vadd b t) (vadd c t) l theta chi
  = vadd (nerf a b c l theta chi) t.
Proof.
  unfold nerf. cbv zeta.
  replace (vsub (vadd b t) (vadd a t)) with (vsub b a)
    by (destruct a, b, t; vec_simpl; f_equal; ring).
  replace (vsub (vadd c t) (vadd b t)) with (vsub c b)
    by (destruct b, c, t; vec_simpl; f_equal; ring).
  set (m := mm _ _). clearbody m.
  destruct c, t, m. vec_simpl. f_equal; ring.
Qed.

Lemma norm2_l2_normalize_small (v : vec3) :
  norm2 v < eps -> norm2 (l2_normalize v) < 1.
Proof.
  intros H. rewrite l2_normalize_small by lra.
  rewrite norm2_vdiv by lra.
  apply Rmult_lt_reg_r with (1e-6 * 1e-6); [lra|].
  unfold Rdiv. rewrite Rmult_assoc, Rinv_l by lra.
  unfold eps in H. lra.
Qed.

(** X6.  In exact real arithmetic, [l2_normalize v] is a unit vector
    exactly when [|v|^2 >= 1e-12]; below the floor the result is strictly
    shorter than a unit vector. *)
Theorem l2_normalize_unit_iff (v : vec3) :
  (norm2 (l2_normalize v) = 1 <-> eps <= norm2 v)
  /\ (norm2 v < eps -> norm2 (l2_normalize v) < 1).
Proof.
  split; [|apply norm2_l2_normalize_small].
  split.
  - intros H. destruct (Rle_lt_dec eps (norm2 v)) as [Hle|Hlt]; [exact Hle|].
    exfalso. rewrite l2_normalize_small in H by lra.
    rewrite norm2_vdiv in H by lra.
    assert (H' : norm2 v = 1e-6 * 1e-6).
    { apply Rmult_eq_reg_r with (/ (1e-6 * 1e-6)); [|apply Rinv_neq_0_compat; lra].
      rewrite Rinv_r by lra. exact H. }
    unfold eps in Hlt. lra.
  - intros H. rewrite l2_normalize_exact by exact H.
    apply norm2_unit_vec. pose proof eps_pos. lra.
Qed.

(** Witness of X6: a vector of length [1e-7]. *)
Lemma l2_normalize_unit_iff_witness :
  norm2 (V3 1e-7 0 0) < eps /\ norm2 (l2_normalize (V3 1e-7 0 0)) < 1.
Proof.
  assert (H : norm2 (V3 1e-7 0 0) < eps) by (unfold eps; vec_simpl; lra).
  split; [exact H|].
  exact (proj2 (l2_normalize_unit_iff (V3 1e-7 0 0)) H).
Defined.

(* ================================================================== *)
(** * Further properties of the backbone extender *)

Lemma index2_ok (angles : tensor2) (i k : nat) (row : list R) :
  nth_error angles i = Some row -> (k < length row)%nat ->
  exists x, index2 angles i k = Ok x.
Proof.
  intros Hr Hk. unfold index2. rewrite Hr.
  destruct (nth_error row k) as [x|] eqn:E; [eauto|].
  apply nth_error_None in E. lia.
Qed.

Lemma index2_inv (angles : tensor2) (i k : nat) (x : R) :
  index2 angles i k = Ok x ->
  exists row, nth_error angles i = Some row /\ (k < length row)%nat.
Proof.
  unfold index2. destruct (nth_error angles i) as [row|]; [|discriminate].
  destruct (nth_error row k) eqn:E; [|discriminate].
  intros _. exists row. split; [reflexivity|].
  apply nth_error_Some. congruence.
Qed.

Lemma from_end_ok (coords : list vec3) (k : nat) :
  (1 <= k <= length coords)%nat -> exists p, from_end coords k = Ok p.
Proof.
  intros Hk. unfold from_end.
  destruct (nth_error (rev coords) (k - 1)) as [p|] eqn:E; [eauto|].
  apply nth_error_None in E. rewrite length_rev in E. lia.
Qed.

Lemma from_end_inv (coords : list vec3) (k : nat) (p : vec3) :
  from_end coords k = Ok p -> (k <= length coords)%nat.
Proof.
  unfold from_end. destruct (nth_error (rev coords) (k - 1)) eqn:E; [|discriminate].
  intros _. assert (H : nth_error (rev coords) (k - 1) <> None) by congruence.
  apply nth_error_Some in H. rewrite length_rev in H. lia.
Qed.

Lemma from_end_app (pre l : list vec3) (k : nat) :
  (1 <= k <= length l)%nat -> from_end (pre ++ l) k = from_end l k.
Proof.
  intros Hk. unfold from_end. rewrite rev_app_distr.
  rewrite nth_error_app1 by (rewrite length_rev; lia). reflexivity.
Qed.

Lemma backbone_point_app (i : nat) (angles : tensor2) (pre l : list vec3)
    (j : nat) :
  length l = 3%nat ->
  backbone_point i angles (pre ++ l) j = backbone_point i angles l j.
Proof.
  intros Hl. unfold backbone_point.
  rewrite !from_end_app by lia. reflexivity.
Qed.

(** X8.  [extend_backbone] reads only the last three points of the
    coordinate list it is given. *)
Theorem extend_backbone_last_three (i : nat) (angles : tensor2)
    (pre : list vec3) (p3 p2 p1 : vec3) :
  extend_backbone i angles (pre ++ [p3; p2; p1])
  = extend_backbone i angles [p3; p2; p1].
Proof.
  rewrite !extend_backbone_shared_context.
  rewrite !(backbone_point_app i angles pre [p3; p2; p1]) by reflexivity.
  reflexivity.
Qed.

Lemma backbone_point_ok (i : nat) (angles : tensor2) (coords : list vec3)
    (j : nat) (row prev : list R) :
  nth_error angles i = Some row -> nth_error angles (i - 1) = Some prev ->
  (6 <= length row)%nat -> (3 <= length prev)%nat ->
  (3 <= length coords)%nat ->
  exists p, backbone_point i angles coords j = Ok p.
Proof.
  intros Hr Hp Hlr Hlp Hc. unfold backbone_point.
  destruct (from_end_ok coords 3 ltac:(lia)) as [q3 ->].
  destruct (from_end_ok coords 2 ltac:(lia)) as [q2 ->].
  destruct (from_end_ok coords 1 ltac:(lia)) as [q1 ->].
  destruct j as [|[|j]].
  - destruct (index2_ok angles i 4 row Hr ltac:(lia)) as [t ->].
    destruct (index2_ok angles (i - 1) 1 prev Hp ltac:(lia)) as [d ->].
    cbn [bind]. eauto.
  - destruct (index2_ok angles i 5 row Hr ltac:(lia)) as [t ->].
    destruct (index2_ok angles (i - 1) 2 prev Hp ltac:(lia)) as [d ->].
    cbn [bind]. eauto.
  - destruct (index2_ok angles i 3 row Hr ltac:(lia)) as [t ->].
    destruct (index2_ok angles i 0 row Hr ltac:(lia)) as [d ->].
    cbn [bind]. eauto.
Qed.

Lemma bind_ok_inv {A B : Type} (m : result A) (k : A -> result B) (b : B) :
  bind m k = Ok b -> exists a, m = Ok a /\ k a = Ok b.
Proof. destruct m as [a|e]; cbn [bind]; [eauto|discriminate]. Qed.

Lemma extend_backbone_ok (i : nat) (angles : tensor2) (coords : list vec3)
    (row prev : list R) :
  nth_error angles i = Some row -> nth_error angles (i - 1) = Some prev ->
  (6 <= length row)%nat -> (3 <= length prev)%nat ->
  (3 <= length coords)%nat ->
  exists n ca c, extend_backbone i angles coords = Ok [n; ca; c].
Proof.
  intros Hr Hp Hlr Hlp Hc.
  rewrite extend_backbone_shared_context.
  destruct (backbone_point_ok i angles coords 0 row prev Hr Hp Hlr Hlp Hc)
    as [n ->].
  destruct (backbone_point_ok i angles coords 1 row prev Hr Hp Hlr Hlp Hc)
    as [ca ->].
  destruct (backbone_point_ok i angles coords 2 row prev Hr Hp Hlr Hlp Hc)
    as [c ->].
  cbn [bind]. eauto.
Qed.

(** X7.  For [i >= 1], [extend_backbone] returns (exactly three points)
    if and only if row [i] of the table has at least six entries, row
    [i - 1] has at least three, and the coordinate list holds at least
    three points. *)
Theorem extend_backbone_ok_iff (i : nat) (angles : tensor2)
    (coords : list vec3) (Hi : (1 <= i)%nat) :
  (exists n ca c, extend_backbone i angles coords = Ok [n; ca; c])
  <-> (exists row prev,
         nth_error angles i = Some row
         /\ nth_error angles (i - 1) = Some prev
         /\ (6 <= length row)%nat /\ (3 <= length prev)%nat)
      /\ (3 <= length coords)%nat.
Proof.
  split.
  - intros (n & ca & c & H).
    rewrite extend_backbone_shared_context in H.
    apply bind_ok_inv in H. destruct H as (n' & H0 & H).
    apply bind_ok_inv in H. destruct H as (ca' & H1 & _).
    unfold backbone_point in H0, H1.
    apply bind_ok_inv in H0. destruct H0 as ([[t0 b0] d0] & Hs0 & H0).
    apply bind_ok_inv in H1. destruct H1 as ([[t1 b1] d1] & Hs1 & _).
    apply bind_ok_inv in Hs0. destruct Hs0 as (x0 & _ & Hs0).
    apply bind_ok_inv in Hs0. destruct Hs0 as (y0 & _ & _).
    apply bind_ok_inv in Hs1. destruct Hs1 as (x1 & Hx1 & Hs1).
    apply bind_ok_inv in Hs1. destruct Hs1 as (y1 & Hy1 & _).
    apply bind_ok_inv in H0. destruct H0 as (q3 & Hq3 & _).
    destruct (index2_inv _ _ _ _ Hx1) as (row & Hr & Hlr).
    destruct (index2_inv _ _ _ _ Hy1) as (prev & Hp & Hlp).
    split; [|apply (from_end_inv _ _ _ Hq3)].
    exists row, prev. repeat split; try assumption; lia.
  - intros [(row & prev & Hr & Hp & Hlr & Hlp) Hc].
    eapply extend_backbone_ok; eauto.
Qed.

(** Witness of X7: residue [1] of the two-residue table. *)
Lemma extend_backbone_ok_iff_witness :
  (1 <= 1)%nat
  /\ ((exists n ca c, extend_backbone 1 angles_ex coords_ex = Ok [n; ca; c])
      <-> (exists row prev,
             nth_error angles_ex 1 = Some row
             /\ nth_error angles_ex (1 - 1) = Some prev
             /\ (6 <= length row)%nat /\ (3 <= length prev)%nat)
          /\ (3 <= length coords_ex)%nat).
Proof.
  split; [lia|].
  exact (extend_backbone_ok_iff 1 angles_ex coords_ex (le_n 1)).
Defined.

(* ================================================================== *)
(** * Further properties of the chain assembler *)

Section AssemblerMore.

Variable aa : Type.
Variable es : extender aa.

Lemma extend_loop_app (angles : tensor2) (input_seq : list aa)
    (idx1 idx2 : list nat) :
  forall bb sc,
    extend_loop es angles input_seq (idx1 ++ idx2) bb sc =
      (st <- extend_loop es angles input_seq idx1 bb sc ;;
       extend_loop es angles input_seq idx2 (fst st) (snd st)).
Proof.
  induction idx1 as [|i idx1 IH]; intros bb sc; [reflexivity|].
  cbn [app extend_loop].
  destruct (extend_backbone i angles bb) as [bb_pts|e]; cbn [bind];
    [|reflexivity].
  destruct (es i angles (bb ++ bb_pts) sc input_seq) as [sc_pts|e]; cbn [bind];
    [|reflexivity].
  apply IH.
Qed.



(** X10.  If the side-chain extender returns [count i] points for residue
    [i], the output of [generate_coords] has
    [3 * max 1 pad_loc + 1 + count 1 + ... + count (pad_loc - 1)] points. *)
Theorem generate_coords_atom_count (count : nat -> nat) (angles : tensor2)
    (pad_loc : nat) (input_seq : list aa) (out : list vec3)
    (Hcount : forall i an bb sc pts,
        es i an bb sc input_seq = Ok pts -> length pts = count i)
    (Hout : generate_coords es angles pad_loc input_seq = Ok out) :
  length out =
    (3 * Nat.max 1 pad_loc + 1
     + list_sum (map count (seq 1 (pad_loc - 1))))%nat.
Proof. exact (generate_coords_length aa es count angles pad_loc input_seq out Hcount Hout). Qed.


(** X12.  Raising [pad_loc] from [n >= 1] to [n + 1] leaves every point
    already placed unchanged: the three backbone points of residue [n]
    (the result of [extend_backbone] on the earlier backbone) are inserted
    after the [3 n] earlier backbone points, and its side-chain points are
    appended at the end. *)
Theorem generate_coords_one_more (angles : tensor2) (n : nat)
    (input_seq : list aa) (out' : list vec3)
    (Hn : (1 <= n)%nat)
    (Hout : generate_coords es angles (S n) input_seq = Ok out') :
  exists bb sc bb_new sc_new,
    generate_coords es angles n input_seq = Ok (bb ++ sc)
    /\ out' = (bb ++ bb_new) ++ (sc ++ sc_new)
    /\ length bb = (3 * n)%nat
    /\ extend_backbone n angles bb = Ok bb_new
    /\ es n angles (bb ++ bb_new) sc input_seq = Ok sc_new.
Proof.
  unfold generate_coords in *.
  destruct (init_backbone angles) as [bb0|e] eqn:Hi; cbn [bind] in *;
    [|discriminate].
  replace (S n - 1)%nat with ((n - 1) + 1)%nat in Hout by lia.
  rewrite seq_app, extend_loop_app in Hout.
  destruct (extend_loop es angles input_seq (seq 1 (n - 1)) bb0
              (init_sidechain angles bb0)) as [st|e] eqn:Hl; cbn [bind] in Hout;
    [|discriminate].
  replace (1 + (n - 1))%nat with n in Hout by lia.
  cbn [seq extend_loop] in Hout.
  destruct (extend_backbone n angles (fst st)) as [bb_new|e] eqn:Hb;
    cbn [bind] in Hout; [|discriminate].
  destruct (es n angles (fst st ++ bb_new) (snd st) input_seq) as [sc_new|e]
    eqn:Hs; cbn [bind] in Hout; [|discriminate].
  injection Hout as <-. cbn [fst snd].
  exists (fst st), (snd st), bb_new, sc_new.
  destruct (extend_loop_shape aa es _ _ _ _ _ _ Hl) as [Hlen _].
  rewrite length_seq, (init_backbone_length _ _ Hi) in Hlen.
  repeat split; try assumption; try reflexivity. lia.
Qed.

End AssemblerMore.



(* ================================================================== *)
(** * Further properties of the dihedral measurement *)

Lemma cauchy_schwarz (u v : vec3) : dot u v * dot u v <= norm2 u * norm2 v.
Proof.
  pose proof (norm2_nonneg (cross u v)) as H. rewrite norm2_cross in H. lra.
Qed.

Lemma cosine_bounds (u v : vec3) :
  0 < norm2 u -> 0 < norm2 v ->
  -1 <= dot u v / (sqrt (norm2 u) * sqrt (norm2 v)) <= 1.
Proof.
  intros Hu Hv.
  pose proof (sqrt_lt_R0 _ Hu) as Hsu. pose proof (sqrt_lt_R0 _ Hv) as Hsv.
  pose proof (sqrt_sqrt (norm2 u) ltac:(lra)) as Hu2.
  pose proof (sqrt_sqrt (norm2 v) ltac:(lra)) as Hv2.
  pose proof (cauchy_schwarz u v) as Hcs.
  set (p := sqrt (norm2 u) * sqrt (norm2 v)) in *.
  assert (Hp : 0 < p) by (unfold p; nra).
  assert (Hpp : dot u v * dot u v <= p * p).
  { unfold p. replace (sqrt (norm2 u) * sqrt (norm2 v) * (sqrt (norm2 u) * sqrt (norm2 v)))
      with (sqrt (norm2 u) * sqrt (norm2 u) * (sqrt (norm2 v) * sqrt (norm2 v))) by ring.
    rewrite Hu2, Hv2. exact Hcs. }
  assert (Hd : - p <= dot u v <= p) by nra.
  split.
  - apply Rmult_le_reg_r with p; [exact Hp|].
    unfold Rdiv. rewrite Rmult_assoc, Rinv_l by lra. lra.
  - apply Rmult_le_reg_r with p; [exact Hp|].
    unfold Rdiv. rewrite Rmult_assoc, Rinv_l by lra. lra.
Qed.

Lemma norm2_pos_of_neq (v : vec3) : v <> vzero -> 0 < norm2 v.
Proof.
  intros H. destruct (norm2_nonneg v) as [Hp|Hz]; [exact Hp|].
  exfalso. apply H. apply norm2_zero_iff. symmetry. exact Hz.
Qed.

Lemma arccos_input_of_unit (x tol : R) :
  -1 <= x <= 1 -> arccos_input_of x tol = Ok x.
Proof.
  intros [H1 H2]. unfold arccos_input_of.
  destruct (Rle_dec (-1) x); [|contradiction].
  destruct (Rle_dec x 1); [reflexivity|contradiction].
Qed.

Lemma getDihedral_closed (c1 c2 c3 c4 : vec3) (radian : bool) :
  cross (vsub c2 c1) (vsub c3 c2) <> vzero ->
  cross (vsub c3 c2) (vsub c4 c3) <> vzero ->
  getDihedral c1 c2 c3 c4 radian =
    Ok (if radian then dihedral_angle (vsub c2 c1) (vsub c3 c2) (vsub c4 c3)
        else dihedral_angle (vsub c2 c1) (vsub c3 c2) (vsub c4 c3)
             * (180 / PI)).
Proof.
  intros H1 H2. unfold getDihedral, dihedral_angle. cbv zeta.
  set (a3 := vsub c4 c3). set (n1 := cross (vsub c2 c1) (vsub c3 c2)) in *.
  set (n2 := cross (vsub c3 c2) a3) in *.
  pose proof (norm2_pos_of_neq n1 H1) as Hp1.
  pose proof (norm2_pos_of_neq n2 H2) as Hp2.
  destruct (Req_dec_T (norm2 n1) 0) as [E|_]; [lra|].
  destruct (Req_dec_T (norm2 n2) 0) as [E|_]; [lra|].
  pose proof (sqrt_lt_R0 _ Hp1) as Hm1. pose proof (sqrt_lt_R0 _ Hp2) as Hm2.
  pose proof (sqrt_sqrt (norm2 n1) ltac:(lra)) as Hs1.
  pose proof (sqrt_sqrt (norm2 n2) ltac:(lra)) as Hs2.
  set (m1 := sqrt (norm2 n1)) in *. set (m2 := sqrt (norm2 n2)) in *.
  rewrite !norm2_vdiv by lra. rewrite Hs1, Hs2.
  replace (norm2 n1 / norm2 n1) with 1 by (field; lra).
  replace (norm2 n2 / norm2 n2) with 1 by (field; lra).
  rewrite Rmult_1_r, sqrt_1.
  rewrite !dot_vdiv_l, dot_vdiv_r.
  replace (dot n1 n2 / m2 / m1 / 1) with (dot n1 n2 / (m1 * m2)) by (field; lra).
  replace (dot n1 a3 / m1) with (/ m1 * dot n1 a3) by (field; lra).
  rewrite sign_scale by (apply Rinv_0_lt_compat; exact Hm1).
  rewrite arccos_input_of_unit by (apply cosine_bounds; assumption).
  cbn [bind]. reflexivity.
Qed.

Lemma getDihedral_degenerate (c1 c2 c3 c4 : vec3) (radian : bool) :
  cross (vsub c2 c1) (vsub c3 c2) = vzero
  \/ cross (vsub c3 c2) (vsub c4 c3) = vzero ->
  getDihedral c1 c2 c3 c4 radian = Raise ArithmeticError.
Proof.
  intros H. unfold getDihedral. cbv zeta.
  destruct (Req_dec_T (norm2 (cross (vsub c2 c1) (vsub c3 c2))) 0) as [E|N1];
    [reflexivity|].
  destruct (Req_dec_T (norm2 (cross (vsub c3 c2) (vsub c4 c3))) 0) as [E|N2];
    [reflexivity|].
  exfalso. destruct H as [H|H]; [apply N1|apply N2];
    apply norm2_zero_iff; exact H.
Qed.

Lemma vec3_eq_dec (u v : vec3) : {u = v} + {u <> v}.
Proof.
  destruct u as [x y z], v as [x' y' z'].
  destruct (Req_dec_T x x') as [->|Hx]; [|right; congruence].
  destruct (Req_dec_T y y') as [->|Hy]; [|right; congruence].
  destruct (Req_dec_T z z') as [->|Hz]; [|right; congruence].
  left. reflexivity.
Qed.

(** X13.  [getDihedral] returns an angle if and only if neither the first
    three nor the last three points are collinear; otherwise it raises
    [ArithmeticError], and it raises nothing else.  In exact arithmetic the
    cosine it measures is always within [[-1, 1]]. *)
Theorem getDihedral_ok_iff (c1 c2 c3 c4 : vec3) (radian : bool) :
  ((exists r, getDihedral c1 c2 c3 c4 radian = Ok r)
   <-> cross (vsub c2 c1) (vsub c3 c2) <> vzero
       /\ cross (vsub c3 c2) (vsub c4 c3) <> vzero)
  /\ (forall e, getDihedral c1 c2 c3 c4 radian = Raise e -> e = ArithmeticError).
Proof.
  destruct (vec3_eq_dec (cross (vsub c2 c1) (vsub c3 c2)) vzero) as [E1|N1].
  { rewrite getDihedral_degenerate by (left; exact E1).
    split; [split|].
    - intros [r H]. discriminate.
    - intros [H _]. contradiction.
    - intros e H. congruence. }
  destruct (vec3_eq_dec (cross (vsub c3 c2) (vsub c4 c3)) vzero) as [E2|N2].
  { rewrite getDihedral_degenerate by (right; exact E2).
    split; [split|].
    - intros [r H]. discriminate.
    - intros [_ H]. contradiction.
    - intros e H. congruence. }
  rewrite getDihedral_closed by assumption.
  split; [split|].
  - intros _. split; assumption.
  - intros _. eauto.
  - intros e H. discriminate.
Qed.

Lemma dihedral_angle_range (a1 a2 a3 : vec3) :
  - PI <= dihedral_angle a1 a2 a3 <= PI.
Proof.
  unfold dihedral_angle. cbv zeta.
  set (c := dot _ _ / _). pose proof (acos_bound c) as [H0 H1].
  set (x := dot (cross a1 a2) a3).
  destruct (Rtotal_order x 0) as [H|[H|H]].
  - rewrite sign_neg by exact H. destruct (Req_dec_T (-1) 0); lra.
  - rewrite H, sign_zero. destruct (Req_dec_T 0 0); lra.
  - rewrite sign_pos by exact H. destruct (Req_dec_T 1 0); lra.
Qed.

(** X14.  An angle returned by [getDihedral] lies in [[-PI, PI]] in
    radians and in [[-180, 180]] in degrees. *)
Theorem getDihedral_range (c1 c2 c3 c4 : vec3) (radian : bool) (r : R)
    (Hr : getDihedral c1 c2 c3 c4 radian = Ok r) :
  if radian then - PI <= r <= PI else -180 <= r <= 180.
Proof.
  destruct (vec3_eq_dec (cross (vsub c2 c1) (vsub c3 c2)) vzero) as [E1|H1];
    [rewrite getDihedral_degenerate in Hr by (left; exact E1); discriminate|].
  destruct (vec3_eq_dec (cross (vsub c3 c2) (vsub c4 c3)) vzero) as [E2|H2];
    [rewrite getDihedral_degenerate in Hr by (right; exact E2); discriminate|].
  rewrite getDihedral_closed in Hr by assumption. injection Hr as <-.
  pose proof (dihedral_angle_range (vsub c2 c1) (vsub c3 c2) (vsub c4 c3)) as [Hl Hu].
  destruct radian; [lra|].
  pose proof PI_RGT_0 as Hpi.
  set (d := dihedral_angle _ _ _) in *.
  assert (E : 180 = PI * (180 / PI)) by (field; lra).
  assert (Hk : 0 < 180 / PI) by (apply Rdiv_lt_0_compat; lra).
  split.
  - replace (-180) with (- PI * (180 / PI)) by (field; lra).
    apply Rmult_le_compat_r; lra.
  - rewrite E at 2. apply Rmult_le_compat_r; lra.
Qed.

Lemma dihedral_angle_congr (a1 a2 a3 b1 b2 b3 : vec3) :
  dot (cross b1 b2) (cross b2 b3)
    / (sqrt (norm2 (cross b1 b2)) * sqrt (norm2 (cross b2 b3)))
  = dot (cross a1 a2) (cross a2 a3)
    / (sqrt (norm2 (cross a1 a2)) * sqrt (norm2 (cross a2 a3))) ->
  sign (dot (cross b1 b2) b3) = sign (dot (cross a1 a2) a3) ->
  dihedral_angle b1 b2 b3 = dihedral_angle a1 a2 a3.
Proof. intros Hc Hs. unfold dihedral_angle. cbv zeta. rewrite Hc, Hs. reflexivity. Qed.

Lemma dihedral_angle_reverse (a1 a2 a3 : vec3) :
  dihedral_angle (vscale (-1) a3) (vscale (-1) a2) (vscale (-1) a1)
  = dihedral_angle a1 a2 a3.
Proof.
  apply dihedral_angle_congr.
  - replace (cross (vscale (-1) a3) (vscale (-1) a2))
      with (vscale (-1) (cross a2 a3))
      by (destruct a2, a3; vec_simpl; f_equal; ring).
    replace (cross (vscale (-1) a2) (vscale (-1) a1))
      with (vscale (-1) (cross a1 a2))
      by (destruct a1, a2; vec_simpl; f_equal; ring).
    replace (norm2 (vscale (-1) (cross a2 a3))) with (norm2 (cross a2 a3))
      by (destruct (cross a2 a3); vec_simpl; ring).
    replace (norm2 (vscale (-1) (cross a1 a2))) with (norm2 (cross a1 a2))
      by (destruct (cross a1 a2); vec_simpl; ring).
    rewrite (Rmult_comm (sqrt (norm2 (cross a2 a3)))).
    f_equal. destruct (cross a1 a2), (cross a2 a3). vec_simpl. ring.
  - f_equal. destruct a1, a2, a3. vec_simpl. ring.
Qed.

Lemma vsub_swap (p q : vec3) : vsub p q = vscale (-1) (vsub q p).
Proof. destruct p, q. vec_simpl. f_equal; ring. Qed.

Lemma cross_neg_neg (u v : vec3) :
  cross (vscale (-1) u) (vscale (-1) v) = cross u v.
Proof. destruct u, v. vec_simpl. f_equal; ring. Qed.

Lemma cross_swap_zero (u v : vec3) : cross u v = vzero -> cross v u = vzero.
Proof.
  intros H. replace (cross v u) with (vscale (-1) (cross u v))
    by (destruct u, v; vec_simpl; f_equal; ring).
  rewrite H. unfold vzero. vec_simpl. f_equal; ring.
Qed.

(** X15.  In exact real arithmetic, [getDihedral] gives the same result
    (the same angle, or the same error) on the four points taken in reverse
    order. *)
Theorem getDihedral_reverse (c1 c2 c3 c4 : vec3) (radian : bool) :
  getDihedral c4 c3 c2 c1 radian = getDihedral c1 c2 c3 c4 radian.
Proof.
  assert (R1 : cross (vsub c3 c4) (vsub c2 c3) = cross (vsub c4 c3) (vsub c3 c2)).
  { rewrite (vsub_swap c3 c4), (vsub_swap c2 c3). apply cross_neg_neg. }
  assert (R2 : cross (vsub c2 c3) (vsub c1 c2) = cross (vsub c3 c2) (vsub c2 c1)).
  { rewrite (vsub_swap c2 c3), (vsub_swap c1 c2). apply cross_neg_neg. }
  destruct (vec3_eq_dec (cross (vsub c2 c1) (vsub c3 c2)) vzero) as [E1|N1].
  { rewrite (getDihedral_degenerate c1) by (left; exact E1).
    apply getDihedral_degenerate. right. rewrite R2.
    apply cross_swap_zero. exact E1. }
  destruct (vec3_eq_dec (cross (vsub c3 c2) (vsub c4 c3)) vzero) as [E2|N2].
  { rewrite (getDihedral_degenerate c1) by (right; exact E2).
    apply getDihedral_degenerate. left. rewrite R1.
    apply cross_swap_zero. exact E2. }
  rewrite (getDihedral_closed c1) by assumption.
  rewrite getDihedral_closed.
  - rewrite (vsub_swap c3 c4), (vsub_swap c2 c3), (vsub_swap c1 c2).
    rewrite dihedral_angle_reverse. reflexivity.
  - rewrite R1. intros E. apply N2. apply cross_swap_zero. exact E.
  - rewrite R2. intros E. apply N1. apply cross_swap_zero. exact E.
Qed.

Lemma vsub_similar (k : R) (t p q : vec3) :
  vsub (similar k t p) (similar k t q) = vscale k (vsub p q).
Proof. destruct t, p, q. unfold similar. vec_simpl. f_equal; ring. Qed.

Lemma cross_vscale (k : R) (u v : vec3) :
  cross (vscale k u) (vscale k v) = vscale (k * k) (cross u v).
Proof. destruct u, v. vec_simpl. f_equal; ring. Qed.

Lemma norm2_vscale (k : R) (v : vec3) : norm2 (vscale k v) = k * k * norm2 v.
Proof. destruct v. vec_simpl. ring. Qed.

Lemma vscale_zero_iff (k : R) (v : vec3) :
  k <> 0 -> (vscale k v = vzero <-> v = vzero).
Proof.
  intros Hk. rewrite <- !norm2_zero_iff, norm2_vscale. split.
  - intros H. assert (0 < k * k) by nra. nra.
  - intros ->. ring.
Qed.

Lemma dihedral_cosine_scaled (k : R) (a1 a2 a3 : vec3) :
  k <> 0 ->
  dot (cross (vscale k a1) (vscale k a2)) (cross (vscale k a2) (vscale k a3))
    / (sqrt (norm2 (cross (vscale k a1) (vscale k a2)))
       * sqrt (norm2 (cross (vscale k a2) (vscale k a3))))
  = dot (cross a1 a2) (cross a2 a3)
    / (sqrt (norm2 (cross a1 a2)) * sqrt (norm2 (cross a2 a3))).
Proof.
  intros Hk. rewrite !cross_vscale, !norm2_vscale.
  assert (Hkk : 0 < k * k) by nra.
  pose proof (norm2_nonneg (cross a1 a2)) as H1.
  pose proof (norm2_nonneg (cross a2 a3)) as H2.
  rewrite (sqrt_mult (k * k * (k * k)) (norm2 (cross a1 a2))) by nra.
  rewrite (sqrt_mult (k * k * (k * k)) (norm2 (cross a2 a3))) by nra.
  rewrite (sqrt_square (k * k)) by nra.
  replace (dot (vscale (k * k) (cross a1 a2)) (vscale (k * k) (cross a2 a3)))
    with (k * k * (k * k) * dot (cross a1 a2) (cross a2 a3))
    by (destruct (cross a1 a2), (cross a2 a3); vec_simpl; ring).
  set (s1 := sqrt (norm2 (cross a1 a2))). set (s2 := sqrt (norm2 (cross a2 a3))).
  set (d := dot _ _).
  unfold Rdiv.
  replace (k * k * s1 * (k * k * s2)) with ((k * k * (k * k)) * (s1 * s2)) by ring.
  rewrite Rinv_mult. set (q := / (s1 * s2)). field. exact Hk.
Qed.

Lemma triple_scaled (k : R) (a1 a2 a3 : vec3) :
  dot (cross (vscale k a1) (vscale k a2)) (vscale k a3)
  = k * (k * k) * dot (cross a1 a2) a3.
Proof. destruct a1, a2, a3. vec_simpl. ring. Qed.

(** X16.  In exact real arithmetic, [getDihedral] is unchanged when the
    four points are scaled by a factor [k > 0] and translated. *)
Theorem getDihedral_similar (k : R) (t c1 c2 c3 c4 : vec3) (radian : bool)
    (Hk : 0 < k) :
  getDihedral (similar k t c1) (similar k t c2) (similar k t c3)
    (similar k t c4) radian
  = getDihedral c1 c2 c3 c4 radian.
Proof.
  assert (Hk0 : k <> 0) by lra.
  assert (Z : forall p q r s : vec3,
             cross (vsub (similar k t q) (similar k t p))
                   (vsub (similar k t s) (similar k t r)) = vzero
             <-> cross (vsub q p) (vsub s r) = vzero).
  { intros p q r s. rewrite !vsub_similar, cross_vscale.
    apply vscale_zero_iff. nra. }
  destruct (vec3_eq_dec (cross (vsub c2 c1) (vsub c3 c2)) vzero) as [E1|N1].
  { rewrite (getDihedral_degenerate c1) by (left; exact E1).
    apply getDihedral_degenerate. left. apply Z. exact E1. }
  destruct (vec3_eq_dec (cross (vsub c3 c2) (vsub c4 c3)) vzero) as [E2|N2].
  { rewrite (getDihedral_degenerate c1) by (right; exact E2).
    apply getDihedral_degenerate. right. apply Z. exact E2. }
  rewrite (getDihedral_closed c1) by assumption.
  rewrite getDihedral_closed by (rewrite Z; assumption).
  rewrite !vsub_similar.
  rewrite (dihedral_angle_congr (vsub c2 c1) (vsub c3 c2) (vsub c4 c3)).
  - reflexivity.
  - apply dihedral_cosine_scaled. exact Hk0.
  - rewrite triple_scaled. apply sign_scale.
    repeat apply Rmult_lt_0_compat; assumption.
Qed.

(** Witness of X16: the staircase, doubled and moved. *)
Lemma getDihedral_similar_witness :
  0 < 2
  /\ getDihedral (similar 2 (V3 1 2 3) (V3 0 0 0)) (similar 2 (V3 1 2 3) (V3 1 0 0))
       (similar 2 (V3 1 2 3) (V3 1 1 0)) (similar 2 (V3 1 2 3) (V3 1 1 1)) true
     = getDihedral (V3 0 0 0) (V3 1 0 0) (V3 1 1 0) (V3 1 1 1) true.
Proof.
  split; [lra|].
  apply (getDihedral_similar 2 (V3 1 2 3) (V3 0 0 0) (V3 1 0 0) (V3 1 1 0)
           (V3 1 1 1) true).
  lra.
Defined.

Lemma sign_opp (x : R) : sign (- x) = - sign x.
Proof.
  destruct (Rtotal_order x 0) as [H|[->|H]].
  - rewrite (sign_neg x) by exact H. rewrite (sign_pos (- x)) by lra. ring.
  - rewrite Ropp_0, sign_zero. ring.
  - rewrite (sign_pos x) by exact H. rewrite (sign_neg (- x)) by lra. ring.
Qed.

Lemma dihedral_angle_inverted (a1 a2 a3 : vec3) :
  dihedral_angle (vscale (-1) a1) (vscale (-1) a2) (vscale (-1) a3)
  = if Req_dec_T (dot (cross a1 a2) a3) 0 then dihedral_angle a1 a2 a3
    else - dihedral_angle a1 a2 a3.
Proof.
  unfold dihedral_angle. cbv zeta.
  rewrite dihedral_cosine_scaled by lra. rewrite triple_scaled.
  replace (-1 * (-1 * -1) * dot (cross a1 a2) a3)
    with (- dot (cross a1 a2) a3) by ring.
  rewrite sign_opp.
  set (c := dot (cross a1 a2) (cross a2 a3) / _).
  set (x := dot (cross a1 a2) a3).
  destruct (Rtotal_order x 0) as [H|[H|H]].
  - rewrite sign_neg by exact H.
    repeat match goal with
           | |- context [Req_dec_T ?u ?v] => destruct (Req_dec_T u v)
           end; try lra; ring.
  - rewrite H, sign_zero.
    repeat match goal with
           | |- context [Req_dec_T ?u ?v] => destruct (Req_dec_T u v)
           end; try lra; reflexivity.
  - rewrite sign_pos by exact H.
    repeat match goal with
           | |- context [Req_dec_T ?u ?v] => destruct (Req_dec_T u v)
           end; try lra; ring.
Qed.

(** X17.  In exact real arithmetic, reflecting the four points through
    the origin negates the dihedral (in radians) returned by [getDihedral],
    except for points whose triple product [((c2 - c1) x (c3 - c2)) .
    (c4 - c3)] is exactly zero (coplanar points), where the sign factor is
    [0] and the result is unchanged. *)
Theorem getDihedral_inverted (c1 c2 c3 c4 : vec3) (r : R)
    (Hr : getDihedral c1 c2 c3 c4 true = Ok r) :
  getDihedral (vscale (-1) c1) (vscale (-1) c2) (vscale (-1) c3)
    (vscale (-1) c4) true
  = Ok (if Req_dec_T
             (dot (cross (vsub c2 c1) (vsub c3 c2)) (vsub c4 c3)) 0
        then r else - r).
Proof.
  destruct (vec3_eq_dec (cross (vsub c2 c1) (vsub c3 c2)) vzero) as [E1|N1];
    [rewrite getDihedral_degenerate in Hr by (left; exact E1); discriminate|].
  destruct (vec3_eq_dec (cross (vsub c3 c2) (vsub c4 c3)) vzero) as [E2|N2];
    [rewrite getDihedral_degenerate in Hr by (right; exact E2); discriminate|].
  rewrite getDihedral_closed in Hr by assumption. injection Hr as <-.
  assert (V : forall p q, vsub (vscale (-1) p) (vscale (-1) q)
                          = vscale (-1) (vsub p q)).
  { intros p q. destruct p, q. vec_simpl. f_equal; ring. }
  rewrite getDihedral_closed.
  - rewrite !V, dihedral_angle_inverted. reflexivity.
  - rewrite !V, cross_neg_neg. exact N1.
  - rewrite !V, cross_neg_neg. exact N2.
Qed.

(* ================================================================== *)
(** * Sequence encoding *)

Lemma dict_get_In {V : Type} (d : list (ascii * V)) (k : ascii) (v : V) :
  dict_get d k = Ok v -> In (k, v) d.
Proof.
  induction d as [|[k' v'] d IH]; simpl; [discriminate|].
  destruct (Ascii.eqb k k') eqn:E.
  - apply Ascii.eqb_eq in E. subst k'. intros H. injection H as <-. now left.
  - intros H. right. apply IH. exact H.
Qed.

Lemma dict_get_ok_iff {V : Type} (d : list (ascii * V)) (k : ascii) :
  (exists v, dict_get d k = Ok v)
  <-> existsb (fun p => Ascii.eqb k (fst p)) d = true.
Proof.
  induction d as [|[k' v'] d IH]; simpl.
  - split; [intros [v H]; discriminate|discriminate].
  - destruct (Ascii.eqb k k'); simpl; [|exact IH].
    split; [reflexivity|eauto].
Qed.

Lemma dict_get_raise {V : Type} (d : list (ascii * V)) (k : ascii) (e : exn) :
  dict_get d k = Raise e -> e = OtherError.
Proof.
  induction d as [|[k' v'] d IH]; simpl; [congruence|].
  destruct (Ascii.eqb k k'); [discriminate|exact IH].
Qed.

Lemma AA_MAP_values : Forall (fun p => (snd p < length AA_MAP)%nat) AA_MAP.
Proof. repeat constructor. Qed.

Lemma AA_MAP_index (aa : ascii) (idx : nat) :
  dict_get AA_MAP aa = Ok idx -> (idx < 20)%nat.
Proof.
  intros H. apply dict_get_In in H.
  exact (proj1 (Forall_forall _ _) AA_MAP_values (aa, idx) H).
Qed.

Lemma AA_MAP_letter_of :
  Forall (fun p => letter_of (snd p) = Some (fst p)) AA_MAP.
Proof. repeat constructor. Qed.

Lemma AA_MAP_injective (a b : ascii) (idx : nat) :
  dict_get AA_MAP a = Ok idx -> dict_get AA_MAP b = Ok idx -> a = b.
Proof.
  intros Ha Hb. apply dict_get_In in Ha, Hb.
  pose proof (proj1 (Forall_forall _ _) AA_MAP_letter_of _ Ha) as Ea.
  pose proof (proj1 (Forall_forall _ _) AA_MAP_letter_of _ Hb) as Eb.
  cbn [fst snd] in Ea, Eb. congruence.
Qed.

Lemma set_item_nth {A : Type} (l : list A) (i j : nat) (v : A) (l' : list A) :
  set_item l i v = Ok l' ->
  nth_error l' j = if Nat.eqb j i then Some v else nth_error l j.
Proof.
  unfold set_item. destruct (Nat.ltb_spec i (length l)) as [Hi|Hi]; [|discriminate].
  intros E. assert (El : l' = firstn i l ++ v :: skipn (S i) l) by congruence.
  subst l'. clear E.
  destruct (Nat.eqb_spec j i) as [->|Hji].
  - rewrite nth_error_app2 by (rewrite length_firstn; lia).
    rewrite length_firstn. replace (i - Nat.min i (length l))%nat with 0%nat by lia.
    reflexivity.
  - destruct (Nat.lt_ge_cases j i) as [Hlt|Hge].
    + rewrite nth_error_app1 by (rewrite length_firstn; lia).
      rewrite nth_error_firstn.
      destruct (Nat.ltb_spec j i); [reflexivity|lia].
    + rewrite nth_error_app2 by (rewrite length_firstn; lia).
      rewrite length_firstn. replace (Nat.min i (length l)) with i by lia.
      destruct (j - i)%nat as [|m] eqn:Em; [lia|].
      change (nth_error (v :: skipn (S i) l) (S m))
        with (nth_error (skipn (S i) l) m).
      rewrite nth_error_skipn. f_equal. lia.
Qed.

Lemma set_item_length {A : Type} (l : list A) (i : nat) (v : A) (l' : list A) :
  set_item l i v = Ok l' -> length l' = length l.
Proof.
  unfold set_item. destruct (Nat.ltb_spec i (length l)) as [Hi|Hi]; [|discriminate].
  intros E. assert (El : l' = firstn i l ++ v :: skipn (S i) l) by congruence.
  subst l'. clear E.
  rewrite length_app. cbn [length]. rewrite length_firstn, length_skipn. lia.
Qed.

Lemma set_item_ok {A : Type} (l : list A) (i : nat) (v : A) :
  (i < length l)%nat -> exists l', set_item l i v = Ok l'.
Proof.
  intros H. unfold set_item.
  destruct (Nat.ltb_spec i (length l)); [eauto|lia].
Qed.

Lemma nth_error_repeat_false (n j : nat) (b : bool) :
  nth_error (repeat false n) j = Some b -> b = false.
Proof.
  intros H. apply nth_error_In in H. apply repeat_spec in H. exact H.
Qed.

Lemma one_hot_index (n i i' : nat) (row : list bool) :
  set_item (repeat false n) i true = Ok row ->
  set_item (repeat false n) i' true = Ok row -> i = i'.
Proof.
  intros H H'.
  pose proof (set_item_nth _ _ i _ _ H) as E. rewrite Nat.eqb_refl in E.
  pose proof (set_item_nth _ _ i _ _ H') as E'. rewrite E in E'.
  destruct (Nat.eqb_spec i i') as [->|N]; [reflexivity|].
  symmetry in E'. apply nth_error_repeat_false in E'. discriminate.
Qed.

Lemma count_true_one_hot (l : list bool) (i : nat) :
  (i < length l)%nat ->
  count_occ bool_dec (firstn i l ++ true :: skipn (S i) l) true
  = S (count_occ bool_dec (firstn i l) true
       + count_occ bool_dec (skipn (S i) l) true).
Proof.
  intros _. rewrite count_occ_app. cbn [count_occ].
  destruct (bool_dec true true); [lia|contradiction].
Qed.

Lemma count_true_all_false (l : list bool) :
  Forall (fun b => b = false) l -> count_occ bool_dec l true = 0%nat.
Proof.
  induction 1 as [|b l Hb _ IH]; [reflexivity|]. subst b. cbn [count_occ].
  destruct (bool_dec false true); [discriminate|exact IH].
Qed.

Lemma in_skipn_list {A : Type} (n : nat) (l : list A) (x : A) :
  In x (skipn n l) -> In x l.
Proof.
  intros H. rewrite <- (firstn_skipn n l). apply in_or_app. right. exact H.
Qed.

Lemma in_firstn_list {A : Type} (n : nat) (l : list A) (x : A) :
  In x (firstn n l) -> In x l.
Proof.
  intros H. rewrite <- (firstn_skipn n l). apply in_or_app. left. exact H.
Qed.

Lemma one_hot_count (n i : nat) (row : list bool) :
  set_item (repeat false n) i true = Ok row ->
  length row = n /\ nth_error row i = Some true
  /\ count_occ bool_dec row true = 1%nat.
Proof.
  intros H. split; [|split].
  - rewrite (set_item_length _ _ _ _ H). apply repeat_length.
  - rewrite (set_item_nth _ _ i _ _ H), Nat.eqb_refl. reflexivity.
  - unfold set_item in H.
    destruct (Nat.ltb_spec i (length (repeat false n))) as [Hi|Hi]; [|discriminate].
    assert (El : row = firstn i (repeat false n)
                       ++ true :: skipn (S i) (repeat false n)) by congruence.
    subst row. clear H. rewrite count_true_one_hot by exact Hi.
    assert (Hall : Forall (fun b => b = false) (repeat false n)).
    { apply Forall_forall. intros b Hb. apply repeat_spec in Hb. exact Hb. }
    rewrite !count_true_all_false; [reflexivity| |].
    + apply Forall_forall. intros b Hb.
      apply (proj1 (Forall_forall _ _) Hall). eapply in_skipn_list; eauto.
    + apply Forall_forall. intros b Hb.
      apply (proj1 (Forall_forall _ _) Hall). eapply in_firstn_list; eauto.
Qed.

(** X18.  When [seq_to_onehot] returns, it has one row per letter of the
    sequence, in order; every row has [20] entries of which exactly one is
    true, at the index that [AA_MAP] gives the letter. *)
Theorem seq_to_onehot_rows (seq : string) (rows : list (list bool))
    (Hok : seq_to_onehot seq = Ok rows) :
  Forall2 (fun aa row =>
             length row = 20%nat
             /\ count_occ bool_dec row true = 1%nat
             /\ exists idx, dict_get AA_MAP aa = Ok idx
                            /\ nth_error row idx = Some true)
          (list_ascii_of_string seq) rows.
Proof.
  revert rows Hok. induction seq as [|aa seq IH]; intros rows Hok.
  - injection Hok as <-. constructor.
  - cbn [seq_to_onehot] in Hok. cbv zeta in Hok.
    destruct (dict_get AA_MAP aa) as [idx|e] eqn:Hd; cbn [bind] in Hok; [|discriminate].
    destruct (set_item (repeat false (length AA_MAP)) idx true) as [row|e] eqn:Hs;
      cbn [bind] in Hok; [|discriminate].
    destruct (seq_to_onehot seq) as [rest|e]; cbn [bind] in Hok; [|discriminate].
    injection Hok as <-. cbn [list_ascii_of_string]. constructor; [|apply IH; reflexivity].
    destruct (one_hot_count _ _ _ Hs) as (Hl & Hn & Hc).
    repeat split; try assumption. eauto.
Qed.

(** X19.  [seq_to_onehot] returns if and only if every letter of the
    sequence is a key of [AA_MAP]; otherwise it raises the [KeyError] of
    the dictionary lookup ([OtherError]) and never an [IndexError]. *)
Theorem seq_to_onehot_ok_iff (seq : string) :
  ((exists rows, seq_to_onehot seq = Ok rows)
   <-> all_amino_letters seq = true)
  /\ (forall e, seq_to_onehot seq = Raise e -> e = OtherError).
Proof.
  induction seq as [|aa seq [IH1 IH2]].
  - cbn [seq_to_onehot all_amino_letters].
    split; [split; [intros _; reflexivity|intros _; eauto]|intros e H; discriminate].
  - cbn [seq_to_onehot all_amino_letters]. cbv zeta. unfold is_amino_letter.
    destruct (dict_get AA_MAP aa) as [idx|e] eqn:Hd; cbn [bind].
    + assert (Ht : existsb (fun p => Ascii.eqb aa (fst p)) AA_MAP = true)
        by (apply dict_get_ok_iff; eauto).
      rewrite Ht. cbn [andb].
      destruct (set_item_ok (repeat false (length AA_MAP)) idx true) as [row ->].
      { rewrite repeat_length. exact (AA_MAP_index _ _ Hd). }
      cbn [bind].
      destruct (seq_to_onehot seq) as [rest|e] eqn:Hr; cbn [bind].
      * split; [split; [intros _; apply IH1; eauto|intros _; eauto]
               |intros e' H; discriminate].
      * split; [split|].
        -- intros [rows H]. discriminate.
        -- intros H. apply IH1 in H. destruct H as [rows H]. discriminate.
        -- intros e' H. injection H as <-. apply IH2. reflexivity.
    + assert (Hf : existsb (fun p => Ascii.eqb aa (fst p)) AA_MAP = false).
      { destruct (existsb _ AA_MAP) eqn:E; [|reflexivity].
        apply dict_get_ok_iff in E. destruct E as [v E]. congruence. }
      rewrite Hf. cbn [andb].
      split; [split; [intros [rows H]; discriminate|intros H; discriminate]|].
      intros e' H. injection H as <-. eapply dict_get_raise; eauto.
Qed.

(** X20.  [seq_to_onehot] is injective: two sequences with the same
    one-hot rows are equal. *)
Theorem seq_to_onehot_injective (s1 s2 : string) (rows : list (list bool))
    (H1 : seq_to_onehot s1 = Ok rows) (H2 : seq_to_onehot s2 = Ok rows) :
  s1 = s2.
Proof.
  revert s2 rows H1 H2. induction s1 as [|a s1 IH]; intros s2 rows H1 H2.
  - injection H1 as <-. destruct s2 as [|b s2]; [reflexivity|].
    cbn [seq_to_onehot] in H2. cbv zeta in H2.
    destruct (dict_get AA_MAP b); cbn [bind] in H2; [|discriminate].
    destruct (set_item _ _ _); cbn [bind] in H2; [|discriminate].
    destruct (seq_to_onehot s2); cbn [bind] in H2; discriminate.
  - cbn [seq_to_onehot] in H1. cbv zeta in H1.
    destruct (dict_get AA_MAP a) as [i|e] eqn:Ha; cbn [bind] in H1; [|discriminate].
    destruct (set_item (repeat false (length AA_MAP)) i true) as [row|e] eqn:Hs;
      cbn [bind] in H1; [|discriminate].
    destruct (seq_to_onehot s1) as [rest|e] eqn:Hr; cbn [bind] in H1; [|discriminate].
    injection H1 as <-.
    destruct s2 as [|b s2]; [discriminate|].
    cbn [seq_to_onehot] in H2. cbv zeta in H2.
    destruct (dict_get AA_MAP b) as [i'|e] eqn:Hb; cbn [bind] in H2; [|discriminate].
    destruct (set_item (repeat false (length AA_MAP)) i' true) as [row'|e] eqn:Hs';
      cbn [bind] in H2; [|discriminate].
    destruct (seq_to_onehot s2) as [rest'|e] eqn:Hr'; cbn [bind] in H2; [|discriminate].
    injection H2 as -> ->.
    assert (i = i') by (eapply one_hot_index; eauto). subst i'.
    f_equal.
    + eapply AA_MAP_injective; eauto.
    + eapply IH; eauto.
Qed.


(* ================================================================== *)
(** * Sine and cosine encoding *)

Lemma sin_cos_items_length (xs : list R) :
  length (sin_cos_items xs) = (2 * length xs)%nat.
Proof.
  induction xs as [|x xs IH]; [reflexivity|].
  change (sin_cos_items (x :: xs)) with (cos x :: sin x :: sin_cos_items xs).
  cbn [length]. rewrite IH. lia.
Qed.

Lemma sin_cos_items_nth (xs : list R) (k : nat) (x : R) :
  nth_error xs k = Some x ->
  nth_error (sin_cos_items xs) (2 * k) = Some (cos x)
  /\ nth_error (sin_cos_items xs) (2 * k + 1) = Some (sin x).
Proof.
  revert k. induction xs as [|y xs IH]; intros k H.
  - destruct k; discriminate.
  - change (sin_cos_items (y :: xs)) with (cos y :: sin y :: sin_cos_items xs).
    destruct k as [|k].
    + cbn [nth_error] in H. assert (y = x) by congruence. subst y.
      split; reflexivity.
    + cbn [nth_error] in H. destruct (IH k H) as [H1 H2].
      replace (2 * S k)%nat with (S (S (2 * k))) by lia.
      replace (S (S (2 * k)) + 1)%nat with (S (S (2 * k + 1))) by lia.
      split; assumption.
Qed.

Lemma reshape_rows_ok_iff (n w : nat) :
  (exists r, reshape_rows n w = Ok r) <-> (0 < w)%nat /\ (n mod w = 0)%nat.
Proof.
  unfold reshape_rows.
  destruct (Nat.eqb_spec w 0) as [->|Hw].
  - split; [intros [r H]; discriminate|intros [H _]; lia].
  - destruct (Nat.eqb_spec (n mod w) 0) as [Hm|Hm].
    + split; [intros _; split; [lia|exact Hm]|eauto].
    + split; [intros [r H]; discriminate|intros [_ H]; contradiction].
Qed.

Lemma double_mod (m n : nat) :
  (0 < n)%nat -> ((m * 2) mod (n * 2) = 0 <-> m mod n = 0)%nat.
Proof.
  intros Hn. rewrite Nat.Div0.mul_mod_distr_r. lia.
Qed.

Lemma double_div (m n : nat) : (0 < n)%nat -> ((m * 2) / (n * 2) = m / n)%nat.
Proof. intros Hn. apply Nat.Div0.div_mul_cancel_r. lia. Qed.

Section SinCosFacts.

Variable N : nat.

(** X21.  With [reshape=True], [angle_list_to_sin_cos] returns if and only
    if the list is empty or [NUM_PREDICTED_ANGLES] is positive and divides
    the number of items of every array; the array made from an array of
    [r x c] angles then has [r c / NUM_PREDICTED_ANGLES] rows of width
    [2 NUM_PREDICTED_ANGLES]: the width [c] itself is not checked. *)
Theorem angle_list_to_sin_cos_reshape (angs : list array2) :
  ((exists out, angle_list_to_sin_cos N angs true = Ok out)
   <-> (angs = [] \/ (0 < N)%nat)
       /\ Forall (fun a => ((nrows a * ncols a) mod N = 0)%nat) angs)
  /\ (forall out, angle_list_to_sin_cos N angs true = Ok out ->
        out = map (fun a => Reshaped (Arr2 ((nrows a * ncols a) / N) (N * 2)
                                         (sin_cos_items (items a)))) angs).
Proof.
  induction angs as [|a angs [IH1 IH2]].
  - split.
    + split; [intros _; split; [now left|constructor]|intros _; cbn; eauto].
    + intros out H. injection H as <-. reflexivity.
  - cbn [angle_list_to_sin_cos]. cbv zeta.
    destruct (Nat.eq_dec N 0) as [->|HN].
    { cbn. split.
      - split; [intros [out H]; discriminate|].
        intros [[H|H] _]; [discriminate|lia].
      - intros out H. discriminate. }
    assert (HN' : (0 < N)%nat) by lia.
    destruct (reshape_rows (nrows a * ncols a * 2) (N * 2)) as [r|e] eqn:Hr;
      cbn [bind].
    + assert (Hm : ((nrows a * ncols a) mod N = 0)%nat).
      { apply (double_mod _ _ HN'). apply reshape_rows_ok_iff. eauto. }
      assert (Er : r = ((nrows a * ncols a) / N)%nat).
      { unfold reshape_rows in Hr.
        destruct (Nat.eqb_spec (N * 2) 0); [discriminate|].
        destruct (Nat.eqb_spec ((nrows a * ncols a * 2) mod (N * 2)) 0);
          [|discriminate].
        injection Hr as <-. apply double_div. exact HN'. }
      subst r.
      destruct (angle_list_to_sin_cos N angs true) as [rest|e] eqn:Hrest;
        cbn [bind].
      * split.
        -- split; [|eauto]. intros _. split; [now right|].
           constructor; [exact Hm|]. apply IH1. eauto.
        -- intros out H. injection H as <-. cbn [map]. f_equal.
           apply IH2. reflexivity.
      * split.
        -- split; [intros [out H]; discriminate|].
           intros [_ H]. inversion H as [|? ? _ Hall]; subst.
           destruct (proj2 IH1) as [out Hout]; [|discriminate].
           split; [now right|exact Hall].
        -- intros out H. discriminate.
    + split.
      * split; [intros [out H]; discriminate|].
        intros [_ H]. inversion H as [|? ? Hm _]; subst.
        exfalso.
        destruct (proj2 (reshape_rows_ok_iff (nrows a * ncols a * 2) (N * 2)))
          as [r Hr']; [|congruence].
        split; [lia|]. apply double_mod; assumption.
      * intros out H. discriminate.
Qed.

Lemma angle_list_to_sin_cos_width_ok (angs : list array2) :
  (0 < N)%nat -> Forall (fun a => ncols a = N) angs ->
  angle_list_to_sin_cos N angs true
  = Ok (map (fun a => Reshaped (Arr2 (nrows a) (N * 2)
                                   (sin_cos_items (items a)))) angs).
Proof.
  intros HN Hw. induction Hw as [|a angs Ha _ IH]; [reflexivity|].
  cbn [angle_list_to_sin_cos map]. cbv zeta. rewrite IH.
  unfold reshape_rows.
  destruct (Nat.eqb_spec (N * 2) 0); [lia|].
  rewrite Ha.
  replace (nrows a * N * 2)%nat with (nrows a * (N * 2))%nat by lia.
  rewrite Nat.Div0.mod_mul, Nat.div_mul by lia.
  reflexivity.
Qed.

(** X22.  When every array has [NUM_PREDICTED_ANGLES] columns,
    [angle_list_to_sin_cos] keeps the number of arrays and of rows, and
    entry [(i, j)] with value [x] becomes the entries [(i, 2 j)] and
    [(i, 2 j + 1)] with values [cos x] and [sin x], a point of the unit
    circle. *)
Theorem angle_list_to_sin_cos_entries (angs : list array2) (a : array2)
    (i j : nat) (x : R)
    (HN : (0 < N)%nat)
    (Hw : Forall (fun a => ncols a = N) angs)
    (Hin : In a angs)
    (Hwf : wf_array2 a)
    (Hj : (j < N)%nat)
    (Hx : item2 a i j = Some x) :
  exists out b,
    angle_list_to_sin_cos N angs true = Ok out
    /\ length out = length angs
    /\ In (Reshaped b) out
    /\ nrows b = nrows a /\ ncols b = (N * 2)%nat /\ wf_array2 b
    /\ item2 b i (2 * j) = Some (cos x)
    /\ item2 b i (2 * j + 1) = Some (sin x)
    /\ cos x * cos x + sin x * sin x = 1.
Proof.
  rewrite (angle_list_to_sin_cos_width_ok angs HN Hw).
  pose proof (proj1 (Forall_forall _ _) Hw a Hin) as Ha. cbv beta in Ha.
  eexists. exists (Arr2 (nrows a) (N * 2) (sin_cos_items (items a))).
  split; [reflexivity|]. split; [apply length_map|].
  split.
  { apply in_map_iff. exists a. split; [reflexivity|exact Hin]. }
  split; [reflexivity|]. split; [reflexivity|].
  unfold wf_array2, item2 in *. cbn [items nrows ncols].
  rewrite Ha in *.
  destruct (sin_cos_items_nth _ _ _ Hx) as [H1 H2].
  split; [rewrite sin_cos_items_length, Hwf; lia|].
  split; [|split].
  - replace (i * (N * 2) + 2 * j)%nat with (2 * (i * N + j))%nat by lia.
    exact H1.
  - replace (i * (N * 2) + (2 * j + 1))%nat with (2 * (i * N + j) + 1)%nat by lia.
    exact H2.
  - pose proof (sin2_cos2 x) as H. unfold Rsqr in H. lra.
Qed.

End SinCosFacts.

(* ================================================================== *)
(** * Angle rows of a residue *)

Lemma all_present_length {A : Type} (l : list (option A)) (xs : list A) :
  all_present l = Some xs -> length xs = length l.
Proof.
  revert xs. induction l as [|[x|] l IH]; intros xs H; cbn in H.
  - injection H as <-. reflexivity.
  - destruct (all_present l) as [ys|]; [|discriminate].
    injection H as <-. cbn. f_equal. apply IH. reflexivity.
  - discriminate.
Qed.

Lemma all_present_none_iff {A : Type} (l : list (option A)) :
  all_present l = None <-> In None l.
Proof.
  induction l as [|[x|] l IH]; cbn.
  - split; [discriminate|contradiction].
  - destruct (all_present l) as [ys|].
    + split; [discriminate|]. intros [H|H]; [discriminate|].
      apply IH in H. discriminate.
    + split; [intros _; right; apply IH; reflexivity|reflexivity].
  - split; [intros _; now left|reflexivity].
Qed.

Section DihedralRowFacts.

Variable residue : Type.
Variable selection : Type.
Variable select : residue -> string -> option selection.
Variable getCoords0 : selection -> vec3.
Variable get_fictitious_c : list selection -> result vec3.
Variable compute_single_dihedral : list selection -> R.
Variable NUM_PREDICTED_ANGLES : nat.

Lemma sliding_dihedrals_length (atoms : list selection) :
  length (sliding_dihedrals compute_single_dihedral atoms) = (length atoms - 3)%nat.
Proof. unfold sliding_dihedrals. now rewrite length_map, length_seq. Qed.

Lemma get_item_inv {A : Type} (l : list A) (i : nat) (x : A) :
  get_item l i = Ok x -> (i < length l)%nat.
Proof.
  unfold get_item. destruct (nth_error l i) eqn:E; [|discriminate].
  intros _. apply nth_error_Some. congruence.
Qed.

(** X23.  A row returned by [compute_all_res_dihedrals] is the backbone
    torsions, the bond angles, [len(atom_names) - 2] dihedrals (none when
    there are fewer names) and then pad values; its length is
    [len(backbone) + len(bondangles)
     + max (len(atom_names) - 2) (NUM_PREDICTED_ANGLES - 6)], so a residue
    with more dihedrals than [NUM_PREDICTED_ANGLES - 6] gets a longer row
    and is never truncated. *)
Theorem compute_all_res_dihedrals_row (atom_names : list string)
    (res : residue) (prev_residue : option residue)
    (backbone bondangles : list R) (pad_char : R) (row : list R)
    (Hrow : compute_all_res_dihedrals select getCoords0 get_fictitious_c
    compute_single_dihedral NUM_PREDICTED_ANGLES atom_names res prev_residue backbone
              bondangles pad_char = Ok (Some row)) :
  (exists dihedrals,
     row = backbone ++ bondangles ++ dihedrals
           ++ repeat pad_char
                (NUM_PREDICTED_ANGLES - 6 - (length atom_names - 2))
     /\ length dihedrals = (length atom_names - 2)%nat)
  /\ length row =
       (length backbone + length bondangles
        + Nat.max (length atom_names - 2) (NUM_PREDICTED_ANGLES - 6))%nat.
Proof.
  assert (Hgen : forall dihedrals,
             length dihedrals = (length atom_names - 2)%nat ->
             row = padded_row NUM_PREDICTED_ANGLES backbone bondangles dihedrals pad_char ->
             (exists dihedrals,
                row = backbone ++ bondangles ++ dihedrals
                      ++ repeat pad_char
                           (NUM_PREDICTED_ANGLES - 6 - (length atom_names - 2))
                /\ length dihedrals = (length atom_names - 2)%nat)
             /\ length row =
                  (length backbone + length bondangles
                   + Nat.max (length atom_names - 2)
                       (NUM_PREDICTED_ANGLES - 6))%nat).
  { intros ds Hl ->. unfold padded_row. rewrite Hl. split.
    - exists ds. split; [reflexivity|exact Hl].
    - rewrite !length_app, repeat_length, Hl. lia. }
  unfold compute_all_res_dihedrals in Hrow.
  destruct (Nat.ltb_spec 0 (length atom_names)) as [Hm|Hm].
  - destruct prev_residue as [prev|].
    + destruct (all_present (select prev "name C" :: select_names select res atom_names))
        as [atoms|] eqn:Ha; [|discriminate].
      apply all_present_length in Ha. cbn [length] in Ha.
      unfold select_names in Ha. rewrite length_map in Ha.
      injection Hrow as <-.
      apply (Hgen (sliding_dihedrals compute_single_dihedral atoms)); [|reflexivity].
      rewrite sliding_dihedrals_length. lia.
    + destruct (all_present (select_names select res atom_names)) as [atoms|] eqn:Ha;
        [|discriminate].
      apply all_present_length in Ha.
      unfold select_names in Ha. rewrite length_map in Ha.
      apply bind_ok_inv in Hrow. destruct Hrow as (pc & _ & Hrow).
      apply bind_ok_inv in Hrow. destruct Hrow as (a0 & _ & Hrow).
      apply bind_ok_inv in Hrow. destruct Hrow as (a1 & _ & Hrow).
      apply bind_ok_inv in Hrow. destruct Hrow as (a2 & H2 & Hrow).
      apply bind_ok_inv in Hrow. destruct Hrow as (d & _ & Hrow).
      apply get_item_inv in H2.
      injection Hrow as <-.
      apply (Hgen ([d] ++ sliding_dihedrals compute_single_dihedral atoms)); [|reflexivity].
      rewrite length_app, sliding_dihedrals_length. cbn [length]. lia.
  - injection Hrow as <-.
    apply (Hgen []); [|reflexivity]. cbn [length]. lia.
Qed.

(** X24.  [compute_all_res_dihedrals] returns [None] if and only if the
    atom list is not empty and one of the named atoms, or the C of the
    previous residue, is not found. *)
Theorem compute_all_res_dihedrals_none_iff (atom_names : list string)
    (res : residue) (prev_residue : option residue)
    (backbone bondangles : list R) (pad_char : R) :
  compute_all_res_dihedrals select getCoords0 get_fictitious_c
    compute_single_dihedral NUM_PREDICTED_ANGLES atom_names res prev_residue backbone bondangles
    pad_char = Ok None
  <-> atom_names <> []
      /\ ((exists an, In an atom_names
                      /\ select res (String.append "name " an) = None)
          \/ (exists prev, prev_residue = Some prev
                           /\ select prev "name C" = None)).
Proof.
  unfold compute_all_res_dihedrals.
  assert (Hsel : In None (select_names select res atom_names)
                 <-> exists an, In an atom_names
                                /\ select res (String.append "name " an) = None).
  { unfold select_names. rewrite in_map_iff. split.
    - intros (an & H1 & H2). eauto.
    - intros (an & H1 & H2). eauto. }
  destruct (Nat.ltb_spec 0 (length atom_names)) as [Hm|Hm].
  - assert (Hne : atom_names <> []) by (destruct atom_names; [cbn in Hm; lia|discriminate]).
    destruct prev_residue as [prev|].
    + destruct (all_present (select prev "name C" :: select_names select res atom_names))
        as [atoms|] eqn:Ha.
      * split; [discriminate|]. intros [_ H]. exfalso.
        assert (Hin : In None (select prev "name C" :: select_names select res atom_names)).
        { destruct H as [H|(p & Hp & Hc)].
          - right. apply Hsel. exact H.
          - injection Hp as <-. left. exact Hc. }
        apply all_present_none_iff in Hin. congruence.
      * split; [|reflexivity]. intros _. split; [exact Hne|].
        apply all_present_none_iff in Ha. destruct Ha as [Ha|Ha].
        -- right. eauto.
        -- left. apply Hsel. exact Ha.
    + destruct (all_present (select_names select res atom_names)) as [atoms|] eqn:Ha.
      * split.
        -- intros H.
           destruct (get_fictitious_c (firstn 3 atoms)); cbn [bind] in H; [|discriminate].
           destruct (get_item atoms 0); cbn [bind] in H; [|discriminate].
           destruct (get_item atoms 1); cbn [bind] in H; [|discriminate].
           destruct (get_item atoms 2); cbn [bind] in H; [|discriminate].
           destruct (getDihedral _ _ _ _ _); cbn [bind] in H; discriminate.
        -- intros [_ [H|(p & Hp & _)]]; [|discriminate].
           apply Hsel, all_present_none_iff in H. congruence.
      * split; [|reflexivity]. intros _. split; [exact Hne|].
        left. apply Hsel, all_present_none_iff. exact Ha.
  - split; [discriminate|]. intros [Hne _]. exfalso.
    destruct atom_names; [congruence|cbn in Hm; lia].
Qed.

End DihedralRowFacts.

(* ================================================================== *)
(** * Instances *)

Lemma generate_coords_one_sidechain :
  generate_coords one_sidechain angles_ex 2 []
  = Ok ((bb0_ex ++ bb1_ex) ++ ([vzero] ++ [V3 1 1 1])).
Proof.
  unfold generate_coords, angles_ex. rewrite init_backbone_row_right.
  cbn [bind Nat.sub seq extend_loop]. fold angles_ex.
  rewrite extend_backbone_ex. reflexivity.
Qed.

Lemma generate_coords_one_residue :
  generate_coords one_sidechain angles_ex 1 [] = Ok (bb0_ex ++ [vzero]).
Proof.
  unfold generate_coords, angles_ex. rewrite init_backbone_row_right.
  reflexivity.
Qed.

(** Witness of X10: two residues, one side-chain point each. *)
Lemma generate_coords_atom_count_witness :
  (forall i an bb sc pts,
     one_sidechain i an bb sc [] = Ok pts -> length pts = (fun _ => 1%nat) i)
  /\ generate_coords one_sidechain angles_ex 2 []
     = Ok ((bb0_ex ++ bb1_ex) ++ ([vzero] ++ [V3 1 1 1]))
  /\ length ((bb0_ex ++ bb1_ex) ++ ([vzero] ++ [V3 1 1 1])) =
       (3 * Nat.max 1 2 + 1
        + list_sum (map (fun _ => 1%nat) (seq 1 (2 - 1))))%nat.
Proof.
  assert (Hc : forall i an bb sc pts,
             one_sidechain i an bb sc [] = Ok pts ->
             length pts = (fun _ => 1%nat) i).
  { intros i an bb sc pts H. unfold one_sidechain in H.
    assert (E : pts = [V3 1 1 1]) by congruence. subst pts. reflexivity. }
  split; [exact Hc|]. split; [exact generate_coords_one_sidechain|].
  exact (generate_coords_atom_count nat one_sidechain (fun _ => 1%nat) angles_ex
           2 [] _ Hc generate_coords_one_sidechain).
Defined.


(** Witness of X12: from one residue to two. *)
Lemma generate_coords_one_more_witness :
  (1 <= 1)%nat
  /\ generate_coords one_sidechain angles_ex 2 []
     = Ok ((bb0_ex ++ bb1_ex) ++ ([vzero] ++ [V3 1 1 1]))
  /\ exists bb sc bb_new sc_new,
       generate_coords one_sidechain angles_ex 1 [] = Ok (bb ++ sc)
       /\ (bb0_ex ++ bb1_ex) ++ ([vzero] ++ [V3 1 1 1])
          = (bb ++ bb_new) ++ (sc ++ sc_new)
       /\ length bb = (3 * 1)%nat
       /\ extend_backbone 1 angles_ex bb = Ok bb_new
       /\ one_sidechain 1%nat angles_ex (bb ++ bb_new) sc [] = Ok sc_new.
Proof.
  split; [lia|]. split; [exact generate_coords_one_sidechain|].
  exact (generate_coords_one_more nat one_sidechain angles_ex 1 [] _ (le_n 1)
           generate_coords_one_sidechain).
Defined.

Lemma getDihedral_stairs :
  getDihedral stair_1 stair_2 stair_3 stair_4 true = Ok (PI / 2).
Proof.
  unfold stair_1, stair_2, stair_3, stair_4.
  rewrite getDihedral_closed.
  - f_equal. unfold dihedral_angle. cbv zeta.
    replace (cross (vsub (V3 1 0 0) (V3 0 0 0)) (vsub (V3 1 1 0) (V3 1 0 0)))
      with (V3 0 0 1) by (vec_simpl; f_equal; ring).
    replace (cross (vsub (V3 1 1 0) (V3 1 0 0)) (vsub (V3 1 1 1) (V3 1 1 0)))
      with (V3 1 0 0) by (vec_simpl; f_equal; ring).
    replace (dot (V3 0 0 1) (V3 1 0 0)) with 0 by (vec_simpl; ring).
    replace (dot (V3 0 0 1) (vsub (V3 1 1 1) (V3 1 1 0))) with 1
      by (vec_simpl; ring).
    rewrite sign_pos by lra.
    destruct (Req_dec_T 1 0); [lra|].
    unfold Rdiv at 1. rewrite Rmult_0_l, acos_0. ring.
  - vec_simpl. intros E. injection E as _ _ E. lra.
  - vec_simpl. intros E. injection E as E _ _. lra.
Qed.

(** Witness of X14: the staircase, whose dihedral is [PI / 2]. *)
Lemma getDihedral_range_witness :
  getDihedral stair_1 stair_2 stair_3 stair_4 true = Ok (PI / 2)
  /\ - PI <= PI / 2 <= PI.
Proof.
  split; [exact getDihedral_stairs|].
  exact (getDihedral_range stair_1 stair_2 stair_3 stair_4 true (PI / 2)
           getDihedral_stairs).
Defined.

(** Witness of X17: the staircase. *)
Lemma getDihedral_inverted_witness :
  getDihedral stair_1 stair_2 stair_3 stair_4 true = Ok (PI / 2)
  /\ getDihedral (vscale (-1) stair_1) (vscale (-1) stair_2)
       (vscale (-1) stair_3) (vscale (-1) stair_4) true
     = Ok (if Req_dec_T
                (dot (cross (vsub stair_2 stair_1) (vsub stair_3 stair_2))
                     (vsub stair_4 stair_3)) 0
           then PI / 2 else - (PI / 2)).
Proof.
  split; [exact getDihedral_stairs|].
  exact (getDihedral_inverted stair_1 stair_2 stair_3 stair_4 (PI / 2)
           getDihedral_stairs).
Defined.

Lemma seq_to_onehot_AG_rows : seq_to_onehot "AG" = Ok onehot_AG.
Proof. reflexivity. Qed.

(** Witness of X18: the sequence [AG]. *)
Lemma seq_to_onehot_rows_witness :
  seq_to_onehot "AG" = Ok onehot_AG
  /\ Forall2 (fun aa row =>
                length row = 20%nat
                /\ count_occ bool_dec row true = 1%nat
                /\ exists idx, dict_get AA_MAP aa = Ok idx
                               /\ nth_error row idx = Some true)
             (list_ascii_of_string "AG") onehot_AG.
Proof.
  split; [exact seq_to_onehot_AG_rows|].
  exact (seq_to_onehot_rows "AG" onehot_AG seq_to_onehot_AG_rows).
Defined.

(** Witness of X20: the sequence [AG]. *)
Lemma seq_to_onehot_injective_witness :
  seq_to_onehot "AG" = Ok onehot_AG
  /\ seq_to_onehot "AG" = Ok onehot_AG
  /\ "AG"%string = "AG"%string.
Proof.
  split; [exact seq_to_onehot_AG_rows|]. split; [exact seq_to_onehot_AG_rows|].
  exact (seq_to_onehot_injective "AG" "AG" onehot_AG seq_to_onehot_AG_rows
           seq_to_onehot_AG_rows).
Defined.

(** Witness of X22: one row [[0, PI / 2]] with two angles per row. *)
Lemma angle_list_to_sin_cos_entries_witness :
  (0 < 2)%nat
  /\ Forall (fun a => ncols a = 2%nat) angs_ex
  /\ In (Arr2 1 2 [0; PI / 2]) angs_ex
  /\ wf_array2 (Arr2 1 2 [0; PI / 2])
  /\ (1 < 2)%nat
  /\ item2 (Arr2 1 2 [0; PI / 2]) 0 1 = Some (PI / 2)
  /\ exists out b,
       angle_list_to_sin_cos 2 angs_ex true = Ok out
       /\ length out = length angs_ex
       /\ In (Reshaped b) out
       /\ nrows b = nrows (Arr2 1 2 [0; PI / 2])
       /\ ncols b = (2 * 2)%nat /\ wf_array2 b
       /\ item2 b 0 (2 * 1) = Some (cos (PI / 2))
       /\ item2 b 0 (2 * 1 + 1) = Some (sin (PI / 2))
       /\ cos (PI / 2) * cos (PI / 2) + sin (PI / 2) * sin (PI / 2) = 1.
Proof.
  assert (H1 : (0 < 2)%nat) by lia.
  assert (H2 : Forall (fun a => ncols a = 2%nat) angs_ex)
    by (repeat constructor).
  assert (H3 : In (Arr2 1 2 [0; PI / 2]) angs_ex) by (left; reflexivity).
  assert (H4 : wf_array2 (Arr2 1 2 [0; PI / 2])) by reflexivity.
  assert (H5 : (1 < 2)%nat) by lia.
  assert (H6 : item2 (Arr2 1 2 [0; PI / 2]) 0 1 = Some (PI / 2)) by reflexivity.
  repeat (split; [assumption|]).
  exact (angle_list_to_sin_cos_entries 2 angs_ex (Arr2 1 2 [0; PI / 2]) 0 1
           (PI / 2) H1 H2 H3 H4 H5 H6).
Defined.

Lemma compute_all_res_dihedrals_toy :
  compute_all_res_dihedrals toy_select (fun v => v)
    (fun _ => Ok (V3 0 0 0))
    (fun _ => 0) 11 toy_names tt (Some tt) [1; 2; 3] [4; 5; 6] 0
  = Ok (Some [1; 2; 3; 4; 5; 6; 0; 0; 0; 0; 0]).
Proof. reflexivity. Qed.

(** Witness of X23: four atom names after a previous residue. *)
Lemma compute_all_res_dihedrals_row_witness :
  compute_all_res_dihedrals toy_select (fun v => v)
    (fun _ => Ok (V3 0 0 0))
    (fun _ => 0) 11 toy_names tt (Some tt) [1; 2; 3] [4; 5; 6] 0
  = Ok (Some [1; 2; 3; 4; 5; 6; 0; 0; 0; 0; 0])
  /\ ((exists dihedrals,
         [1; 2; 3; 4; 5; 6; 0; 0; 0; 0; 0]
         = [1; 2; 3] ++ [4; 5; 6] ++ dihedrals
           ++ repeat 0 (11 - 6 - (length toy_names - 2))
         /\ length dihedrals = (length toy_names - 2)%nat)
      /\ length [1; 2; 3; 4; 5; 6; 0; 0; 0; 0; 0] =
           (length [1; 2; 3] + length [4; 5; 6]
            + Nat.max (length toy_names - 2) (11 - 6))%nat).
Proof.
  split; [exact compute_all_res_dihedrals_toy|].
  exact (compute_all_res_dihedrals_row unit vec3 toy_select (fun v => v)
           (fun _ => Ok (V3 0 0 0)) (fun _ => 0) 11 toy_names tt (Some tt)
           [1; 2; 3] [4; 5; 6] 0 _ compute_all_res_dihedrals_toy).
Defined.
